(** * Triangle counting on a CSR graph: the WGSL kernel and the CSR builder

    A shallow embedding of [compute.wgsl] (the per-vertex counting kernel
    [main] and the binary-search helper [is_neighbor]) and of [main.js]
    ([parseGraphToCSR] and the dispatch of [runTriangleCounting]), with the
    properties of the specification stated over them.

    Modelling choices:
    - a [u32] is an integer of [Z] in [0, 2^32), every addition and
      subtraction of the shader is reduced modulo 2^32, and so is every store
      into a [Uint32Array];
    - a read of a storage buffer past its end ends the task with
      [OutOfBounds]; the loops carry fuel, set from the distance the cursors
      still have to go, and [OutOfFuel] is shown never to occur;
    - the invocations of a dispatch only meet in the atomic counter: they run
      one after the other, and the order is shown not to matter;
    - a JavaScript [Set] is the list of its elements in insertion order, the
      [Map] [adj] a finite map, and a number that holds an id an integer;
    - the text of the input is a list of code units below 256. *)

From Stdlib Require Import ZArith Ascii String.
From stdpp Require Import base tactics option list numbers strings gmap sorting.

Local Open Scope Z_scope.

(** ** 32-bit unsigned integers

    WGSL [u32] values are integers in [0, 2^32); arithmetic wraps. *)

Definition u32_modulus : Z := 2 ^ 32.

Definition u32 (z : Z) : Z := z mod u32_modulus.

Definition is_u32 (z : Z) : Prop := 0 <= z < u32_modulus.

(** ** Outcomes of a kernel computation

    A read past the end of a storage buffer is reported as [OutOfBounds]
    (WGSL leaves the value read unspecified); [OutOfFuel] is the outcome of a
    loop that was cut before its condition became false. *)

Inductive outcome (A : Type) : Type :=
  | Ok (a : A)
  | OutOfBounds
  | OutOfFuel.

Arguments Ok {A} a.
Arguments OutOfBounds {A}.
Arguments OutOfFuel {A}.

Global Instance outcome_eq_dec {A} `{EqDecision A} : EqDecision (outcome A).
Proof. solve_decision. Defined.

Definition bind {A B} (m : outcome A) (k : A -> outcome B) : outcome B :=
  match m with
  | Ok a => k a
  | OutOfBounds => OutOfBounds
  | OutOfFuel => OutOfFuel
  end.

Notation "'let*' x ':=' m 'in' k" := (bind m (fun x => k))
  (at level 10, x name, m at level 100, k at level 200).

(** ** Storage buffers of the shader *)

Record Storage : Type := {
  row_ptr : list Z;     (* @binding(0) var<storage, read> row_ptr: array<u32> *)
  edge_list : list Z    (* @binding(1) var<storage, read> edge_list: array<u32> *)
}.

Definition arrayLength (buf : list Z) : Z := Z.of_nat (length buf).

(** [buf[i]] for a [u32] index.  WGSL does not fix the value of a read
    outside the buffer (it may be any element of the buffer, or zero), so such
    a read is marked [OutOfBounds] and ends the run of the model; the results
    about runs show [Ok], that is, that every read they cover is inside. *)
Definition load (buf : list Z) (i : Z) : outcome Z :=
  match buf !! Z.to_nat i with
  | Some x => Ok x
  | None => OutOfBounds
  end.

(** [atomicAdd(&total_triangles, 1u)] on the [atomic<u32>] counter. *)
Definition atomicAdd (counter : Z) (k : Z) : Z := u32 (counter + k).

(** ** [is_neighbor]: binary search in the neighbor list of [node] *)

Fixpoint is_neighbor_loop (fuel : nat) (g : Storage) (searchValue start end_ : Z)
  : outcome bool :=
  if start <? end_ then
    match fuel with
    | O => OutOfFuel
    | S fuel' =>
        let mid := u32 (start + u32 (end_ - start) / 2) in
        let* val := load (edge_list g) mid in
        if val =? searchValue then Ok true
        else if val <? searchValue then
          is_neighbor_loop fuel' g searchValue (u32 (mid + 1)) end_
        else
          is_neighbor_loop fuel' g searchValue start mid
    end
  else Ok false.

Definition is_neighbor (g : Storage) (node searchValue : Z) : outcome bool :=
  let* start := load (row_ptr g) node in
  let* end_ := load (row_ptr g) (u32 (node + 1)) in
  is_neighbor_loop (Z.to_nat (end_ - start)) g searchValue start end_.

(** ** [main]: the task of one invocation, for vertex [u]

    The counter is threaded through the task; every [atomicAdd] is one
    increment of it. *)

(** The merge-join [while (ptr_u < end_u && ptr_v < end_v)]. *)
Fixpoint merge_loop (fuel : nat) (g : Storage) (end_u end_v ptr_u ptr_v : Z)
    (counter : Z) : outcome Z :=
  if (ptr_u <? end_u) && (ptr_v <? end_v) then
    match fuel with
    | O => OutOfFuel
    | S fuel' =>
        let* w_from_u := load (edge_list g) ptr_u in
        let* w_from_v := load (edge_list g) ptr_v in
        if w_from_u =? w_from_v then
          merge_loop fuel' g end_u end_v (u32 (ptr_u + 1)) (u32 (ptr_v + 1))
            (atomicAdd counter 1)
        else if w_from_u <? w_from_v then
          merge_loop fuel' g end_u end_v (u32 (ptr_u + 1)) ptr_v counter
        else
          merge_loop fuel' g end_u end_v ptr_u (u32 (ptr_v + 1)) counter
    end
  else Ok counter.

(** The loop [for (var i = start_u; i < end_u; i = i + 1u)]. *)
Fixpoint neighbor_loop (fuel : nat) (g : Storage) (u end_u i : Z) (counter : Z)
  : outcome Z :=
  if i <? end_u then
    match fuel with
    | O => OutOfFuel
    | S fuel' =>
        let* v := load (edge_list g) i in
        if v <=? u then
          neighbor_loop fuel' g u end_u (u32 (i + 1)) counter
        else
          let* start_v := load (row_ptr g) v in
          let* end_v := load (row_ptr g) (u32 (v + 1)) in
          let ptr_u := u32 (i + 1) in
          let ptr_v := start_v in
          let* counter' :=
            merge_loop (Z.to_nat ((end_u - ptr_u) + (end_v - ptr_v)))
              g end_u end_v ptr_u ptr_v counter in
          neighbor_loop fuel' g u end_u (u32 (i + 1)) counter'
    end
  else Ok counter.

Definition main (g : Storage) (global_id_x : Z) (counter : Z) : outcome Z :=
  let u := global_id_x in
  let num_nodes := u32 (arrayLength (row_ptr g) - 1) in
  if num_nodes <=? u then Ok counter
  else
    let* start_u := load (row_ptr g) u in
    let* end_u := load (row_ptr g) (u32 (u + 1)) in
    neighbor_loop (Z.to_nat (end_u - start_u)) g u end_u start_u counter.

(** ** Dispatch

    [dispatchWorkgroups(numWorkgroups)] runs one invocation for every global id
    below [numWorkgroups * workgroup_size].  The invocations only interact
    through the atomic counter, so they are run one after the other.  The
    limit of a device on the number of workgroups is not part of the model. *)

Fixpoint run_tasks (g : Storage) (ids : list Z) (counter : Z) : outcome Z :=
  match ids with
  | [] => Ok counter
  | u :: ids' => let* counter' := main g u counter in run_tasks g ids' counter'
  end.

Definition dispatchWorkgroups (workgroup_size numWorkgroups : Z) (g : Storage)
    (counter : Z) : outcome Z :=
  run_tasks g (seqZ 0 (numWorkgroups * workgroup_size)) counter.

(** ** The CSR builder of [main.js]

    The text of the file is a list of code units; ids are JavaScript numbers:
    integers that a double holds, in [Z], as [parseInt] returns them. *)

Record CSR : Type := {
  numNodes : Z;
  rowPtr : list Z;      (* Uint32Array *)
  edgeList : list Z     (* Uint32Array *)
}.

Definition newline : ascii := ascii_of_nat 10.

(** White space of [String.prototype.trim] and of the regular expression
    [\s], among the code units below 256. *)
Definition is_space (c : ascii) : bool :=
  let n := nat_of_ascii c in
  ((9 <=? n) && (n <=? 13) || (n =? 32) || (n =? 160))%nat.

Definition add_head (c : ascii) (parts : list (list ascii)) : list (list ascii) :=
  match parts with
  | [] => [[c]]
  | p :: parts' => (c :: p) :: parts'
  end.

(** [text.split('\n')] *)
Fixpoint split_lines (text : list ascii) : list (list ascii) :=
  match text with
  | [] => [[]]
  | c :: text' =>
      if Ascii.eqb c newline then [] :: split_lines text'
      else add_head c (split_lines text')
  end.

Fixpoint trimStart (s : list ascii) : list ascii :=
  match s with
  | [] => []
  | c :: s' => if is_space c then trimStart s' else s
  end.

(** [s.trim()] *)
Definition trim (s : list ascii) : list ascii :=
  reverse (trimStart (reverse (trimStart s))).

(** [s.startsWith('#')] *)
Definition startsWith_hash (s : list ascii) : bool :=
  match s with
  | c :: _ => Ascii.eqb c "#"%char
  | [] => false
  end.

(** [s.split(/\s+/)]: [skipping] holds inside a run of white space. *)
Fixpoint split_spaces_from (skipping : bool) (s : list ascii) : list (list ascii) :=
  match s with
  | [] => [[]]
  | c :: s' =>
      if is_space c then
        if skipping then split_spaces_from true s'
        else [] :: split_spaces_from true s'
      else add_head c (split_spaces_from false s')
  end.

Definition split_spaces (s : list ascii) : list (list ascii) :=
  split_spaces_from false s.

Definition digit_value (c : ascii) : option Z :=
  let n := nat_of_ascii c in
  if ((48 <=? n) && (n <=? 57))%nat then Some (Z.of_nat n - 48) else None.

Fixpoint leading_digits (s : list ascii) : list Z :=
  match s with
  | [] => []
  | c :: s' =>
      match digit_value c with
      | Some d => d :: leading_digits s'
      | None => []
      end
  end.

Definition decimal_value (ds : list Z) : Z :=
  foldl (fun acc d => 10 * acc + d) 0 ds.

(** The Number value of an integer: the nearest double, ties to the even
    significand.  Integers up to 2^53 in absolute value are kept; [2^1024]
    and [- 2^1024] stand for [Infinity] and [-Infinity], in their place in
    the order of the numbers. *)
Definition round_magnitude (n : Z) : Z :=
  let e := Z.log2 n in
  if e <? 53 then n
  else
    let shift := e - 52 in
    let q := Z.shiftr n shift in
    let r := n mod 2 ^ shift in
    let half := 2 ^ (shift - 1) in
    let q := if (half <? r) || ((r =? half) && Z.odd q) then q + 1 else q in
    Z.min (Z.shiftl q shift) (2 ^ 1024).

Definition round_to_double (z : Z) : Z :=
  if z <? 0 then - round_magnitude (- z) else round_magnitude z.

(** [parseInt(s, 10)]; [None] is [NaN].  The argument is [None] for
    [undefined], whose string form holds no digit.  The result is a Number:
    the value of the digits rounded to a double ([-0] is [0]).  Every digit
    is read; ECMAScript lets an engine take the digits after the 20th for
    zeros. *)
Definition parseInt (s : option (list ascii)) : option Z :=
  match s with
  | None => None
  | Some s =>
      let s := trimStart s in
      let '(negative, s) :=
        match s with
        | c :: s' =>
            if Ascii.eqb c "-"%char then (true, s')
            else if Ascii.eqb c "+"%char then (false, s')
            else (false, s)
        | [] => (false, s)
        end in
      match leading_digits s with
      | [] => None
      | ds =>
          let mathInt := decimal_value ds in
          Some (round_to_double (if negative then - mathInt else mathInt))
      end
  end.

(** A field starts with an integer: after leading white space and an
    optional sign comes a decimal digit. *)
Definition starts_with_integer (field : option (list ascii)) : bool :=
  match field with
  | None => false
  | Some s =>
      match trimStart s with
      | c :: s' =>
          if Ascii.eqb c "-"%char || Ascii.eqb c "+"%char then
            match s' with
            | d :: _ => bool_decide (is_Some (digit_value d))
            | [] => false
            end
          else bool_decide (is_Some (digit_value c))
      | [] => false
      end
  end.

(** A JavaScript [Set] of numbers: its elements in insertion order. *)
Definition set_add (x : Z) (s : list Z) : list Z :=
  if decide (x ∈ s) then s else s ++ [x].

(** The state built by [lines.forEach]: the [Map] [adj] and the [Set]
    [allNodeIds]. *)
Record Adjacency : Type := {
  adj : gmap Z (list Z);
  allNodeIds : list Z
}.

Definition adj_ensure (k : Z) (m : gmap Z (list Z)) : gmap Z (list Z) :=
  match m !! k with
  | Some _ => m
  | None => <[k := []]> m
  end.

(** [adj.get(k).add(x)] *)
Definition adj_add (k x : Z) (m : gmap Z (list Z)) : gmap Z (list Z) :=
  match m !! k with
  | Some s => <[k := set_add x s]> m
  | None => m
  end.

(** The two fields of a record, as [parseInt] reads them. *)
Definition parse_record (line : list ascii) : option Z * option Z :=
  let fields := split_spaces (trim line) in
  (parseInt (fields !! 0%nat), parseInt (fields !! 1%nat)).

Definition add_record (st : Adjacency) (u v : Z) : Adjacency :=
  let ids := set_add v (set_add u (allNodeIds st)) in
  let m := adj_ensure v (adj_ensure u (adj st)) in
  let m := if decide (u = v) then m else adj_add v u (adj_add u v m) in
  {| adj := m; allNodeIds := ids |}.

(** The body of [lines.forEach]. *)
Definition process_line (st : Adjacency) (line : list ascii) : Adjacency :=
  match parse_record line with
  | (Some u, Some v) => add_record st u v
  | _ => st
  end.

(** [Array.prototype.sort((a, b) => a - b)] *)
Definition sort_numbers (l : list Z) : list Z := merge_sort Z.le l.

(** [new Map(sortedNodeIds.map((id, index) => [id, index]))] *)
Definition make_nodeMap (sortedNodeIds : list Z) : gmap Z Z :=
  foldl (fun m '(id, index) => <[id := index]> m) ∅
        (imap (fun index id => (id, Z.of_nat index)) sortedNodeIds).

(** One round of [for (let i = 0; i < numNodes; i++)], on the state
    [(rowPtr, edgeListData, currentEdgeIndex)]. *)
Definition emit_node (m : gmap Z (list Z)) (nodeMap : gmap Z Z)
    (sortedNodeIds : list Z) (st : list Z * list (option Z) * Z) (i : nat)
  : list Z * list (option Z) * Z :=
  let '(rowPtr, edgeListData, currentEdgeIndex) := st in
  let rowPtr := <[i := u32 currentEdgeIndex]> rowPtr in
  match sortedNodeIds !! i ≫= (m !!.) with
  | Some s =>
      let neighbors := (nodeMap !!.) <$> sort_numbers s in
      (rowPtr, edgeListData ++ neighbors,
       currentEdgeIndex + Z.of_nat (length neighbors))
  | None => (rowPtr, edgeListData, currentEdgeIndex)
  end.

(** Conversion of an array element on [new Uint32Array(array)]:
    [undefined] becomes 0. *)
Definition ToUint32 (x : option Z) : Z :=
  match x with
  | Some z => u32 z
  | None => 0
  end.

(** What [parseGraphToCSR] does once [lines] is known. *)
Definition csr_of_lines (lines : list (list ascii)) : CSR :=
  let st := foldl process_line {| adj := ∅; allNodeIds := [] |} lines in
  let sortedNodeIds := sort_numbers (allNodeIds st) in
  let nodeMap := make_nodeMap sortedNodeIds in
  let n := length sortedNodeIds in
  let '(rowPtr, edgeListData, currentEdgeIndex) :=
    foldl (emit_node (adj st) nodeMap sortedNodeIds)
          (replicate (S n) 0, [], 0) (seq 0 n) in
  let rowPtr := <[n := u32 currentEdgeIndex]> rowPtr in
  {| numNodes := Z.of_nat n;
     rowPtr := rowPtr;
     edgeList := ToUint32 <$> edgeListData |}.

Definition keep_line (line : list ascii) : bool :=
  negb (bool_decide (trim line = [])) && negb (startsWith_hash line).

Definition parseGraphToCSR (text : list ascii) : CSR :=
  csr_of_lines (filter (fun line => keep_line line = true) (split_lines text)).

(** ** [runTriangleCounting]: the launch of the kernel on a built graph

    [runTriangleCounting] below is the compute pass as it runs once the
    commands are accepted; [finalCount] adds the validation of the commands
    under the limits of the device. *)

Definition workgroupSize : Z := 256.

(** [Math.ceil(a / b)] for integers [a >= 0] and [b > 0]. *)
Definition ceil_div (a b : Z) : Z := (a + b - 1) / b.

Definition storage_of (c : CSR) : Storage :=
  {| row_ptr := rowPtr c; edge_list := edgeList c |}.

Definition runTriangleCounting (c : CSR) : outcome Z :=
  let numWorkgroups := ceil_div (numNodes c) workgroupSize in
  dispatchWorkgroups workgroupSize numWorkgroups (storage_of c) 0.

Definition count_triangles (text : list ascii) : outcome Z :=
  runTriangleCounting (parseGraphToCSR text).

(** ** The limits of the device

    [adapter.requestDevice()] is called without a descriptor, so the device
    has the default limits of WebGPU; [createBindGroup] binds each buffer as
    a whole. *)

Definition maxStorageBufferBindingSize : Z := 134217728.

Definition maxComputeWorkgroupsPerDimension : Z := 65535.

(** [a.byteLength] of a [Uint32Array] *)
Definition byteLength (a : list Z) : Z := 4 * Z.of_nat (length a).

(** The two graph buffers fit a storage binding and the grid fits a
    dispatch. *)
Definition within_default_limits (c : CSR) : bool :=
  (byteLength (rowPtr c) <=? maxStorageBufferBindingSize)
  && (byteLength (edgeList c) <=? maxStorageBufferBindingSize)
  && (ceil_div (numNodes c) workgroupSize <=? maxComputeWorkgroupsPerDimension).

(** The commands pass validation: the limits are kept, and no binding is
    empty. *)
Definition commands_valid (c : CSR) : bool :=
  within_default_limits c
  && (0 <? byteLength (rowPtr c)) && (0 <? byteLength (edgeList c)).

(** The number that [runTriangleCounting] reads back from the staging
    buffer and shows.  Commands that fail validation are not run: no
    exception is thrown, and the staging buffer keeps the zero it is created
    with. *)
Definition finalCount (c : CSR) : outcome Z :=
  if commands_valid c then runTriangleCounting c else Ok 0.

Definition text_of (s : string) : list ascii := list_ascii_of_string s.

(** Records joined by line feeds. *)
Fixpoint unlines (ls : list string) : list ascii :=
  match ls with
  | [] => []
  | [l] => text_of l
  | l :: ls' => text_of l ++ newline :: unlines ls'
  end.

(** ** The CSR graph as the specification sees it *)

Definition num_nodes (g : Storage) : Z := arrayLength (row_ptr g) - 1.

(** [l[lo .. hi)] *)
Definition slice (l : list Z) (lo hi : Z) : list Z :=
  take (Z.to_nat hi - Z.to_nat lo) (drop (Z.to_nat lo) l).

(** The neighbor sub-list [edge_list[row_ptr[i] .. row_ptr[i+1])] of node [i]. *)
Definition neighbors (g : Storage) (i : Z) : list Z :=
  match row_ptr g !! Z.to_nat i, row_ptr g !! Z.to_nat (i + 1) with
  | Some lo, Some hi => slice (edge_list g) lo hi
  | _, _ => []
  end.

Definition strictly_increasing (l : list Z) : Prop := Sorted Z.lt l.

(** The buffers are arrays of [u32] that [arrayLength] can measure, and every
    row lies inside [edge_list]. *)
Record csr_layout (g : Storage) : Prop := {
  layout_rows : (0 < length (row_ptr g))%nat;
  layout_row_ptr_len : arrayLength (row_ptr g) < u32_modulus;
  layout_edge_list_len : arrayLength (edge_list g) < u32_modulus;
  layout_row_ptr_u32 : Forall is_u32 (row_ptr g);
  layout_edge_list_u32 : Forall is_u32 (edge_list g);
  layout_monotone : forall (i : nat) lo hi,
    row_ptr g !! i = Some lo -> row_ptr g !! S i = Some hi -> lo <= hi;
  layout_last :
    row_ptr g !! Z.to_nat (num_nodes g) = Some (arrayLength (edge_list g))
}.

(** The invariants of the CSR graph (data model of the specification). *)
Record csr_invariants (g : Storage) : Prop := {
  inv_layout : csr_layout g;
  inv_sorted : forall i, 0 <= i < num_nodes g ->
    strictly_increasing (neighbors g i);
  inv_no_self_loop : forall i, 0 <= i < num_nodes g -> i ∉ neighbors g i;
  inv_symmetric : forall u v, 0 <= u < num_nodes g -> v ∈ neighbors g u ->
    0 <= v < num_nodes g /\ u ∈ neighbors g v
}.

(** The edge [{u, v}] is present. *)
Definition has_edge (g : Storage) (u v : Z) : bool :=
  bool_decide (v ∈ neighbors g u) && bool_decide (u ∈ neighbors g v).

Definition is_triangle (g : Storage) (t : Z * Z * Z) : bool :=
  let '(a, b, c) := t in
  has_edge g a b && has_edge g b c && has_edge g a c.

(** The unordered triples of vertices below [n], each as [(a, b, c)] with
    [a < b < c]. *)
Definition triples (n : Z) : list (Z * Z * Z) :=
  a ← seqZ 0 n;
  b ← seqZ (a + 1) (n - (a + 1));
  c ← seqZ (b + 1) (n - (b + 1));
  [(a, b, c)].

(** The number of triangles of the graph. *)
Definition triangles (g : Storage) : Z :=
  Z.of_nat (length (filter (fun t => is_triangle g t = true) (triples (num_nodes g)))).

(** The triangles whose smallest vertex is [a]. *)
Definition triangles_at (g : Storage) (a : Z) : Z :=
  Z.of_nat (length (filter (fun t => is_triangle g t = true)
    (b ← seqZ (a + 1) (num_nodes g - (a + 1));
     c ← seqZ (b + 1) (num_nodes g - (b + 1));
     [(a, b, c)]))).

(** The triangles [{a, b, c}] with [c] above [b]. *)
Definition triangles_on (g : Storage) (a b : Z) : Z :=
  Z.of_nat (length (filter (fun c => is_triangle g (a, b, c) = true)
    (seqZ (b + 1) (num_nodes g - (b + 1))))).

(** ** The counting algorithm on lists

    The merge-join of two lists, and the scan of a neighbor list [l] of [u]
    over a neighbor function [nb]. *)

Fixpoint merge_count (l1 : list Z) : list Z -> Z :=
  fix inner (l2 : list Z) : Z :=
    match l1, l2 with
    | x :: l1', y :: l2' =>
        if x =? y then 1 + merge_count l1' l2'
        else if x <? y then merge_count l1' l2
        else inner l2'
    | _, _ => 0
    end.

Fixpoint scan_count (nb : Z -> list Z) (u : Z) (l : list Z) : Z :=
  match l with
  | [] => 0
  | v :: post =>
      (if v <=? u then 0 else merge_count post (nb v)) + scan_count nb u post
  end.

Definition sumZ {A} (f : A -> Z) (l : list A) : Z :=
  foldr (fun x acc => f x + acc) 0 l.

(** ** The records of the input and what the builder makes of them *)

Definition record_of (line : list ascii) : option (Z * Z) :=
  match parse_record line with
  | (Some u, Some v) => Some (u, v)
  | _ => None
  end.

Definition records (lines : list (list ascii)) : list (Z * Z) :=
  omap record_of lines.

Definition build_state (lines : list (list ascii)) : Adjacency :=
  foldl process_line {| adj := ∅; allNodeIds := [] |} lines.

(** The sorted external ids, and the sorted external neighbors of an id. *)
Definition node_ids (lines : list (list ascii)) : list Z :=
  sort_numbers (allNodeIds (build_state lines)).

Definition ext_neighbors (lines : list (list ascii)) (x : Z) : list Z :=
  sort_numbers (default [] (adj (build_state lines) !! x)).

(** The ids and the edges that a list of records mentions. *)
Definition mentions (recs : list (Z * Z)) (x : Z) : Prop :=
  exists u v, (u, v) ∈ recs /\ (x = u \/ x = v).

Definition links (recs : list (Z * Z)) (x y : Z) : Prop :=
  exists u v, (u, v) ∈ recs /\ u ≠ v /\ (x = u /\ y = v \/ x = v /\ y = u).

(** The internal id of an external id: its rank among the sorted ids. *)
Definition rank (sortedNodeIds : list Z) (x : Z) : Z :=
  default 0 (make_nodeMap sortedNodeIds !! x).

(** The row that [emit_node] appends for the external id [x]. *)
Definition row_data (m : gmap Z (list Z)) (nodeMap : gmap Z Z) (x : Z)
  : list (option Z) :=
  (nodeMap !!.) <$> sort_numbers (default [] (m !! x)).

(** The offsets of the rows in their concatenation. *)
Definition offsets {A} (rows : list (list A)) : list Z :=
  (fun k => Z.of_nat (length (concat (take k rows)))) <$> seq 0 (S (length rows)).

(** The CSR form of a list of rows. *)
Definition csr_of_rows (rows : list (list Z)) : Storage :=
  {| row_ptr := offsets rows; edge_list := concat rows |}.

(** The rows of internal ids that the builder lays out, one for each
    external id in ascending order. *)
Definition internal_rows (lines : list (list ascii)) : list (list Z) :=
  (fun x => rank (node_ids lines) <$> ext_neighbors lines x) <$> node_ids lines.

(** The complete graph on [n] vertices in CSR form. *)
Definition complete_graph (n : Z) : Storage :=
  csr_of_rows ((fun i => filter (fun j => j ≠ i) (seqZ 0 n)) <$> seqZ 0 n).

(** The graph record of given buffers, as [runTriangleCounting] receives it. *)
Definition csr_of_storage (g : Storage) : CSR :=
  {| numNodes := num_nodes g; rowPtr := row_ptr g; edgeList := edge_list g |}.

(** The sum that counts the triples [a < b < c] below [n]: for each [a] and
    each [b] above it, the number of [c] above [b]. *)
Definition count_triples (n : Z) : Z :=
  sumZ (fun a => sumZ (fun b => Z.max 0 (n - (b + 1))) (seqZ (a + 1) (n - (a + 1))))
       (seqZ 0 n).

(** ** The input as a graph

    The kept lines of a text, the ids and the edges of the records, and the
    triangles they form. *)

(** [lines] of [parseGraphToCSR]. *)
Definition input_lines (text : list ascii) : list (list ascii) :=
  filter (fun line => keep_line line = true) (split_lines text).

(** [lines.join('\n')] *)
Fixpoint join_lines (lines : list (list ascii)) : list ascii :=
  match lines with
  | [] => []
  | [l] => l
  | l :: ls => l ++ newline :: join_lines ls
  end.

(** The distinct ids of the records, in ascending order. *)
Definition input_ids (lines : list (list ascii)) : list Z :=
  sort_numbers (remove_dups (records lines ≫= fun '(u, v) => [u; v])).

(** Some record gives the edge between [x] and [y], two different ids. *)
Definition joins (recs : list (Z * Z)) (x y : Z) : bool :=
  existsb (fun '(u, v) =>
             negb (u =? v) && ((x =? u) && (y =? v) || (x =? v) && (y =? u)))
          recs.

(** The pairs and the triples of members of a list, in the order of the list. *)
Fixpoint pairs_of {A} (l : list A) : list (A * A) :=
  match l with
  | [] => []
  | y :: l' => ((fun z => (y, z)) <$> l') ++ pairs_of l'
  end.

Fixpoint triples_of {A} (l : list A) : list (A * A * A) :=
  match l with
  | [] => []
  | x :: l' => ((fun '(y, z) => (x, y, z)) <$> pairs_of l') ++ triples_of l'
  end.

(** The undirected edges and the triangles of the input. *)
Definition input_edges (lines : list (list ascii)) : list (Z * Z) :=
  filter (fun '(x, y) => joins (records lines) x y = true)
         (pairs_of (input_ids lines)).

Definition input_triangles (lines : list (list ascii)) : Z :=
  Z.of_nat (length (filter
    (fun '(x, y, z) =>
       joins (records lines) x y && joins (records lines) y z
       && joins (records lines) x z = true)
    (triples_of (input_ids lines)))).

(** ** [updateStatus]

    The status element: its text and its list of classes, a [DOMTokenList]. *)

Record Element : Type := {
  textContent : string;
  classList : list string
}.

(** [classList.remove(...tokens)] *)
Definition classList_remove (tokens : list string) (cl : list string) : list string :=
  filter (fun t => t ∉ tokens) cl.

(** [classList.add(...tokens)] *)
Definition classList_add (tokens : list string) (cl : list string) : list string :=
  foldl (fun cl t => if decide (t ∈ cl) then cl else cl ++ [t]) cl tokens.

Definition status_classes : list string :=
  ["text-yellow-400"; "text-green-400"; "text-red-400"; "animate-pulse"]%string.

(** [updateStatus(message, type)]; [type] is [None] when the argument is left
    out and then defaults to ['running']. *)
Definition updateStatus (statusEl : Element) (message : string)
    (type : option string) : Element :=
  let type := default "running"%string type in
  let cl := classList_remove status_classes (classList statusEl) in
  let cl :=
    if decide (type = "success"%string) then classList_add ["text-green-400"%string] cl
    else if decide (type = "error"%string) then classList_add ["text-red-400"%string] cl
    else if decide (type = "running"%string) then
      classList_add ["text-yellow-400"; "animate-pulse"]%string cl
    else classList_add ["text-yellow-400"%string] cl in
  {| textContent := message; classList := cl |}.

(** * Properties *)

(** ** Arithmetic on [u32] and reads *)

Lemma u32_modulus_eq : u32_modulus = 4294967296.
Proof. reflexivity. Qed.

Lemma u32_small z : is_u32 z -> u32 z = z.
Proof. intros [??]. unfold u32. by rewrite Z.mod_small. Qed.

Lemma u32_is_u32 z : is_u32 (u32 z).
Proof. unfold is_u32, u32. apply Z.mod_pos_bound. by rewrite u32_modulus_eq. Qed.

Lemma u32_add_l a b : u32 (u32 a + b) = u32 (a + b).
Proof. unfold u32. by rewrite Zplus_mod_idemp_l. Qed.

Lemma load_lookup buf i x :
  buf !! Z.to_nat i = Some x -> load buf i = Ok x.
Proof. unfold load. by intros ->. Qed.

Lemma load_in_bounds buf i :
  0 <= i < arrayLength buf -> exists x, load buf i = Ok x /\ buf !! Z.to_nat i = Some x.
Proof.
  unfold arrayLength. intros Hi.
  destruct (lookup_lt_is_Some_2 buf (Z.to_nat i)) as [x Hx]; [lia|].
  exists x. split; [by apply load_lookup | done].
Qed.

(** ** Slices *)

Lemma slice_empty l lo hi : hi <= lo -> slice l lo hi = [].
Proof.
  intros H. unfold slice.
  replace (Z.to_nat hi - Z.to_nat lo)%nat with 0%nat by lia. done.
Qed.

Lemma slice_cons l lo hi x :
  0 <= lo < hi -> l !! Z.to_nat lo = Some x ->
  slice l lo hi = x :: slice l (lo + 1) hi.
Proof.
  intros H Hx. unfold slice.
  rewrite (drop_S _ _ _ Hx).
  replace (Z.to_nat hi - Z.to_nat lo)%nat
    with (S (Z.to_nat hi - Z.to_nat (lo + 1)))%nat by lia.
  replace (Z.to_nat (lo + 1)) with (S (Z.to_nat lo)) by lia. done.
Qed.

Lemma slice_split l lo mid hi :
  0 <= lo <= mid -> mid <= hi ->
  slice l lo hi = slice l lo mid ++ slice l mid hi.
Proof.
  intros H1 H2. unfold slice.
  replace (Z.to_nat hi - Z.to_nat lo)%nat
    with ((Z.to_nat mid - Z.to_nat lo) + (Z.to_nat hi - Z.to_nat mid))%nat by lia.
  rewrite <- take_take_drop. f_equal. rewrite drop_drop.
  by replace (Z.to_nat lo + (Z.to_nat mid - Z.to_nat lo))%nat
    with (Z.to_nat mid) by lia.
Qed.

(** ** Sorted lists of integers *)

Lemma strictly_increasing_strong l :
  strictly_increasing l -> StronglySorted Z.lt l.
Proof. apply Sorted_StronglySorted. intros ???; lia. Qed.

Lemma strictly_increasing_NoDup l : strictly_increasing l -> NoDup l.
Proof.
  intros H%strictly_increasing_strong. induction H as [|x l Hl IH Hx]; constructor; [|done].
  intros Hin. rewrite Forall_forall in Hx. specialize (Hx _ Hin). lia.
Qed.

(** ** [is_neighbor] *)

Lemma is_neighbor_loop_spec g searchValue fuel : forall start end_,
  0 <= start -> end_ <= arrayLength (edge_list g) ->
  arrayLength (edge_list g) < u32_modulus ->
  (start < end_ -> end_ - start <= Z.of_nat fuel) ->
  StronglySorted Z.lt (slice (edge_list g) start end_) ->
  is_neighbor_loop fuel g searchValue start end_
  = Ok (bool_decide (searchValue ∈ slice (edge_list g) start end_)).
Proof.
  rewrite u32_modulus_eq.
  induction fuel as [|fuel IH]; intros start end_ Hs He Hlen Hfuel Hsorted; simpl.
  - destruct (Z.ltb_spec start end_); [lia|].
    rewrite slice_empty by lia. by rewrite bool_decide_eq_false_2 by set_solver.
  - destruct (Z.ltb_spec start end_) as [Hlt|Hge].
    2:{ rewrite slice_empty by lia. by rewrite bool_decide_eq_false_2 by set_solver. }
    assert (Hsub : u32 (end_ - start) = end_ - start)
      by (apply u32_small; unfold is_u32; rewrite u32_modulus_eq; lia).
    rewrite Hsub.
    set (mid := start + (end_ - start) / 2).
    assert (Hmid : start <= mid < end_).
    { unfold mid. pose proof (Z.div_pos (end_ - start) 2).
      pose proof (Z.div_lt_upper_bound (end_ - start) 2 (end_ - start)). lia. }
    rewrite (u32_small mid) by (unfold is_u32; rewrite u32_modulus_eq; lia).
    rewrite (u32_small (mid + 1)) by (unfold is_u32; rewrite u32_modulus_eq; lia).
    destruct (load_in_bounds (edge_list g) mid) as (val & -> & Hval); [lia|]. simpl.
    rewrite (slice_split _ start mid end_) in Hsorted |- * by lia.
    rewrite (slice_cons _ mid end_ val) in Hsorted |- * by (lia || done).
    apply StronglySorted_app in Hsorted as (Hlr & Hleft & Hright).
    apply StronglySorted_cons in Hright as [Hgt Hright].
    destruct (Z.eqb_spec val searchValue) as [->|Hne].
    { f_equal. symmetry. apply bool_decide_eq_true_2.
      apply elem_of_app. right. by left. }
    destruct (Z.ltb_spec val searchValue) as [Hlts|Hges].
    + rewrite IH; [|lia|lia|lia|lia|done]. f_equal. apply bool_decide_ext.
      rewrite elem_of_app, elem_of_cons. split; [tauto|].
      intros [Hl|[?|?]]; [|done|done].
      assert (searchValue < val) by (apply Hlr; [done | by left]). lia.
    + rewrite IH; [|lia|lia|lia|lia|done]. f_equal. apply bool_decide_ext.
      rewrite elem_of_app, elem_of_cons. split; [tauto|].
      intros [?|[?|Hr]]; [done|done|].
      rewrite Forall_forall in Hgt. specialize (Hgt _ Hr). lia.
Qed.

(** ** Rows of a well laid out graph *)

Lemma layout_monotone_le g (i j : nat) lo hi :
  csr_layout g -> (i <= j)%nat ->
  row_ptr g !! i = Some lo -> row_ptr g !! j = Some hi -> lo <= hi.
Proof.
  intros Hg Hij Hi. revert hi. induction Hij as [|j Hij IH]; intros hi Hj.
  - naive_solver lia.
  - destruct (lookup_lt_is_Some_2 (row_ptr g) j) as [mid Hmid].
    { apply lookup_lt_Some in Hj. lia. }
    specialize (IH _ Hmid). pose proof (layout_monotone g Hg j _ _ Hmid Hj). lia.
Qed.

Lemma layout_row g i :
  csr_layout g -> 0 <= i < num_nodes g ->
  exists lo hi,
    row_ptr g !! Z.to_nat i = Some lo /\ row_ptr g !! Z.to_nat (i + 1) = Some hi /\
    0 <= lo <= hi /\ hi <= arrayLength (edge_list g) /\
    neighbors g i = slice (edge_list g) lo hi.
Proof.
  intros Hg Hi. unfold num_nodes, arrayLength in *.
  destruct (lookup_lt_is_Some_2 (row_ptr g) (Z.to_nat i)) as [lo Hlo]; [lia|].
  destruct (lookup_lt_is_Some_2 (row_ptr g) (Z.to_nat (i + 1))) as [hi Hhi]; [lia|].
  exists lo, hi. split_and!; try done.
  - pose proof (layout_row_ptr_u32 g Hg) as Hu. rewrite Forall_lookup in Hu.
    apply Hu in Hlo. unfold is_u32 in Hlo. lia.
  - eapply (layout_monotone_le g (Z.to_nat i) (Z.to_nat (i + 1))); eauto. lia.
  - eapply (layout_monotone_le g (Z.to_nat (i + 1))); [done| |done|apply (layout_last g Hg)].
    unfold num_nodes, arrayLength. lia.
  - unfold neighbors. by rewrite Hlo, Hhi.
Qed.

(** C10. For every node whose neighbor sub-list
    [edge_list[row_ptr[node] .. row_ptr[node+1])] lies within the buffers and
    is strictly increasing, the binary search [is_neighbor] terminates and
    returns true exactly when the value searched occurs in that sub-list. *)
Theorem is_neighbor_correct g node searchValue lo hi :
  0 <= node -> node + 1 < u32_modulus ->
  row_ptr g !! Z.to_nat node = Some lo ->
  row_ptr g !! Z.to_nat (node + 1) = Some hi ->
  0 <= lo -> hi <= arrayLength (edge_list g) ->
  arrayLength (edge_list g) < u32_modulus ->
  strictly_increasing (neighbors g node) ->
  is_neighbor g node searchValue
  = Ok (bool_decide (searchValue ∈ neighbors g node)).
Proof.
  intros Hnode Hnode' Hlo Hhi Hlo0 Hhi_le Hlen Hsorted.
  assert (Hnb : neighbors g node = slice (edge_list g) lo hi)
    by (unfold neighbors; by rewrite Hlo, Hhi).
  unfold is_neighbor.
  rewrite (load_lookup _ _ _ Hlo). simpl.
  rewrite (u32_small (node + 1)) by (unfold is_u32; lia).
  rewrite (load_lookup _ _ _ Hhi). simpl.
  rewrite Hnb in *.
  apply is_neighbor_loop_spec; [lia|done|done|lia|].
  by apply strictly_increasing_strong.
Qed.

Lemma is_neighbor_correct_witness :
  let g := {| row_ptr := [0; 2; 4; 6]; edge_list := [1; 2; 0; 2; 0; 1] |} in
  is_neighbor g 1 2 = Ok (bool_decide (2 ∈ neighbors g 1)).
Proof.
  intros g. apply (is_neighbor_correct g 1 2 2 4).
  - lia.
  - reflexivity.
  - reflexivity.
  - reflexivity.
  - lia.
  - vm_compute. discriminate.
  - reflexivity.
  - vm_compute. repeat constructor.
Defined.

Example is_neighbor_finds :
  let g := {| row_ptr := [0; 2; 4; 6]; edge_list := [1; 2; 0; 2; 0; 1] |} in
  is_neighbor g 1 2 = Ok true /\ is_neighbor g 1 1 = Ok false /\
  is_neighbor g 2 0 = Ok true /\ is_neighbor g 0 0 = Ok false.
Proof. vm_compute. repeat split. Qed.

(** ** The merge-join and the scan of a neighbor list *)

Lemma merge_count_nil_r l1 : merge_count l1 [] = 0.
Proof. by destruct l1. Qed.

Lemma merge_count_nil_l l2 : merge_count [] l2 = 0.
Proof. by destruct l2. Qed.

Lemma merge_count_slices_exit l pu eu pv ev :
  eu <= pu \/ ev <= pv -> merge_count (slice l pu eu) (slice l pv ev) = 0.
Proof.
  intros [H|H].
  - rewrite (slice_empty _ pu) by done. apply merge_count_nil_l.
  - rewrite (slice_empty _ pv) by done. apply merge_count_nil_r.
Qed.

Lemma merge_count_cons x l1 y l2 :
  merge_count (x :: l1) (y :: l2)
  = if x =? y then 1 + merge_count l1 l2
    else if x <? y then merge_count l1 (y :: l2)
    else merge_count (x :: l1) l2.
Proof. reflexivity. Qed.

Lemma merge_loop_spec g fuel : forall end_u end_v ptr_u ptr_v c,
  0 <= ptr_u -> 0 <= ptr_v ->
  end_u <= arrayLength (edge_list g) -> end_v <= arrayLength (edge_list g) ->
  arrayLength (edge_list g) < u32_modulus -> is_u32 c ->
  (ptr_u < end_u -> ptr_v < end_v ->
   (end_u - ptr_u) + (end_v - ptr_v) <= Z.of_nat fuel) ->
  merge_loop fuel g end_u end_v ptr_u ptr_v c
  = Ok (u32 (c + merge_count (slice (edge_list g) ptr_u end_u)
                             (slice (edge_list g) ptr_v end_v))).
Proof.
  rewrite u32_modulus_eq.
  induction fuel as [|fuel IH];
    intros end_u end_v ptr_u ptr_v c Hpu Hpv Heu Hev Hlen Hc Hfuel; simpl.
  - destruct (Z.ltb_spec ptr_u end_u), (Z.ltb_spec ptr_v end_v); simpl;
      try lia; rewrite merge_count_slices_exit by lia;
      by rewrite Z.add_0_r, u32_small.
  - destruct (Z.ltb_spec ptr_u end_u) as [Hu|Hu]; simpl.
    2:{ rewrite merge_count_slices_exit by lia. by rewrite Z.add_0_r, u32_small. }
    destruct (Z.ltb_spec ptr_v end_v) as [Hv|Hv]; simpl.
    2:{ rewrite merge_count_slices_exit by lia. by rewrite Z.add_0_r, u32_small. }
    destruct (load_in_bounds (edge_list g) ptr_u) as (wu & -> & Hwu); [lia|].
    destruct (load_in_bounds (edge_list g) ptr_v) as (wv & -> & Hwv); [lia|].
    simpl.
    rewrite (slice_cons _ ptr_u end_u wu), (slice_cons _ ptr_v end_v wv) by (lia || done).
    rewrite merge_count_cons.
    rewrite (u32_small (ptr_u + 1)), (u32_small (ptr_v + 1))
      by (unfold is_u32; rewrite u32_modulus_eq; lia).
    destruct (wu =? wv); [|destruct (wu <? wv)].
    + rewrite IH; [|lia|lia|lia|lia|lia|apply u32_is_u32|lia].
      f_equal. unfold atomicAdd. rewrite u32_add_l. f_equal. lia.
    + rewrite IH; [|lia|lia|lia|lia|lia|done|lia].
      by rewrite (slice_cons _ ptr_v end_v wv) by (lia || done).
    + rewrite IH; [|lia|lia|lia|lia|lia|done|lia].
      by rewrite (slice_cons _ ptr_u end_u wu) by (lia || done).
Qed.

Lemma neighbor_loop_spec g u end_u fuel : forall i c,
  csr_layout g -> 0 <= u -> 0 <= i ->
  end_u <= arrayLength (edge_list g) -> is_u32 c ->
  (i < end_u -> end_u - i <= Z.of_nat fuel) ->
  (forall v, v ∈ slice (edge_list g) i end_u -> u < v -> v < num_nodes g) ->
  neighbor_loop fuel g u end_u i c
  = Ok (u32 (c + scan_count (neighbors g) u (slice (edge_list g) i end_u))).
Proof.
  induction fuel as [|fuel IH]; intros i c Hg Hu Hi Heu Hc Hfuel Hrange; simpl.
  - destruct (Z.ltb_spec i end_u); [lia|].
    rewrite slice_empty by lia. simpl. by rewrite Z.add_0_r, u32_small.
  - destruct (Z.ltb_spec i end_u) as [Hlt|Hge].
    2:{ rewrite slice_empty by lia. simpl. by rewrite Z.add_0_r, u32_small. }
    pose proof (layout_edge_list_len g Hg) as Hlen. rewrite u32_modulus_eq in Hlen.
    destruct (load_in_bounds (edge_list g) i) as (v & -> & Hv); [lia|]. simpl.
    rewrite (slice_cons _ i end_u v) in Hrange |- * by (lia || done).
    rewrite (u32_small (i + 1)) by (unfold is_u32; rewrite u32_modulus_eq; lia).
    simpl. destruct (Z.leb_spec v u) as [Hvu|Hvu].
    + rewrite IH; [|done|lia|lia|lia|done|lia|].
      * f_equal.
      * intros w Hw. apply Hrange. by right.
    + assert (Hvn : 0 <= v < num_nodes g) by (split; [lia|apply Hrange; [by left|lia]]).
      destruct (layout_row g v Hg Hvn) as (lo & hi & Hlo & Hhi & Hle & Hhi_le & Hnb).
      pose proof (layout_row_ptr_len g Hg) as Hrl. rewrite u32_modulus_eq in Hrl.
      unfold num_nodes in Hvn.
      rewrite (load_lookup _ _ _ Hlo). simpl.
      rewrite (u32_small (v + 1)) by (unfold is_u32; rewrite u32_modulus_eq; lia).
      rewrite (load_lookup _ _ _ Hhi). simpl.
      rewrite merge_loop_spec;
        [|lia|lia|lia|lia|by rewrite u32_modulus_eq|done|lia].
      simpl. rewrite IH; [|done|lia|lia|lia|apply u32_is_u32|lia|].
      * f_equal. rewrite u32_add_l, Hnb. f_equal. lia.
      * intros w Hw. apply Hrange. by right.
Qed.

Lemma main_out_of_range g u c :
  (0 < length (row_ptr g))%nat -> arrayLength (row_ptr g) < u32_modulus ->
  num_nodes g <= u -> main g u c = Ok c.
Proof.
  intros Hpos Hlen Hu. unfold main, num_nodes, arrayLength in *.
  rewrite u32_small by (unfold is_u32; lia).
  by destruct (Z.leb_spec (Z.of_nat (length (row_ptr g)) - 1) u); [|lia].
Qed.

Lemma main_spec g u c :
  csr_layout g -> 0 <= u < num_nodes g -> is_u32 c ->
  (forall v, v ∈ neighbors g u -> u < v -> v < num_nodes g) ->
  main g u c = Ok (u32 (c + scan_count (neighbors g) u (neighbors g u))).
Proof.
  intros Hg Hu Hc Hrange.
  destruct (layout_row g u Hg Hu) as (lo & hi & Hlo & Hhi & Hle & Hhi_le & Hnb).
  pose proof (layout_row_ptr_len g Hg) as Hrl. rewrite u32_modulus_eq in Hrl.
  unfold main. fold (num_nodes g).
  rewrite (u32_small (num_nodes g))
    by (unfold is_u32, num_nodes in *; rewrite u32_modulus_eq; lia).
  destruct (Z.leb_spec (num_nodes g) u); [lia|].
  unfold num_nodes in Hu.
  rewrite (load_lookup _ _ _ Hlo). simpl.
  rewrite (u32_small (u + 1)) by (unfold is_u32; rewrite u32_modulus_eq; lia).
  rewrite (load_lookup _ _ _ Hhi). simpl.
  rewrite Hnb in *. apply neighbor_loop_spec; try done; lia.
Qed.

(** ** Running the tasks of a grid *)

Lemma run_tasks_app g l1 l2 c :
  run_tasks g (l1 ++ l2) c = let* c' := run_tasks g l1 c in run_tasks g l2 c'.
Proof.
  revert c. induction l1 as [|u l1 IH]; intros c; simpl; [done|].
  destruct (main g u c); simpl; auto.
Qed.

Lemma run_tasks_out_of_range g ids c :
  (0 < length (row_ptr g))%nat -> arrayLength (row_ptr g) < u32_modulus ->
  Forall (fun u => num_nodes g <= u) ids -> run_tasks g ids c = Ok c.
Proof.
  intros Hpos Hlen. induction 1 as [|u ids Hu _ IH]; simpl; [done|].
  by rewrite main_out_of_range.
Qed.

Lemma bind_Ok_r {A} (m : outcome A) : (let* x := m in Ok x) = m.
Proof. by destruct m. Qed.

Lemma run_tasks_grid g grid c :
  (0 < length (row_ptr g))%nat -> arrayLength (row_ptr g) < u32_modulus ->
  num_nodes g <= grid ->
  run_tasks g (seqZ 0 grid) c = run_tasks g (seqZ 0 (num_nodes g)) c.
Proof.
  intros Hpos Hlen Hgrid.
  assert (0 <= num_nodes g) by (unfold num_nodes, arrayLength; lia).
  replace grid with (num_nodes g + (grid - num_nodes g)) at 1 by lia.
  rewrite seqZ_app by lia. rewrite run_tasks_app.
  rewrite <- (bind_Ok_r (run_tasks g (seqZ 0 (num_nodes g)) c)) at 2.
  destruct (run_tasks g (seqZ 0 (num_nodes g)) c) as [c'| |]; simpl; try done.
  apply run_tasks_out_of_range; try done.
  apply Forall_forall. intros u Hu%elem_of_seqZ. lia.
Qed.

Lemma ceil_div_grid n wg : 0 <= n -> 0 < wg -> n <= ceil_div n wg * wg.
Proof.
  intros Hn Hwg. unfold ceil_div.
  pose proof (Z.mul_div_le (n + wg - 1) wg Hwg).
  pose proof (Z.mod_pos_bound (n + wg - 1) wg Hwg).
  pose proof (Z.div_mod (n + wg - 1) wg). lia.
Qed.

(** C4. For every graph whose [row_ptr] holds at least one entry: a task whose
    index is at least the number of nodes returns with the counter unchanged
    and without an out-of-bounds read; a grid of any size at least the number
    of nodes, in particular one rounded up to a multiple of 256 or of any
    other positive group size, leaves the same final count as the exact grid;
    and a graph with no node yields the count 0. *)
Theorem out_of_range_tasks_are_noops g :
  (0 < length (row_ptr g))%nat -> arrayLength (row_ptr g) < u32_modulus ->
  (forall u c, num_nodes g <= u -> main g u c = Ok c) /\
  (forall wg k c, num_nodes g <= k * wg ->
     dispatchWorkgroups wg k g c = run_tasks g (seqZ 0 (num_nodes g)) c) /\
  (forall c,
     dispatchWorkgroups workgroupSize (ceil_div (num_nodes g) workgroupSize) g c
     = run_tasks g (seqZ 0 (num_nodes g)) c) /\
  (forall wg1 wg2 c, 0 < wg1 -> 0 < wg2 ->
     dispatchWorkgroups wg1 (ceil_div (num_nodes g) wg1) g c
     = dispatchWorkgroups wg2 (ceil_div (num_nodes g) wg2) g c) /\
  (num_nodes g = 0 ->
     dispatchWorkgroups workgroupSize (ceil_div (num_nodes g) workgroupSize) g 0
     = Ok 0).
Proof.
  intros Hpos Hlen.
  assert (Hn : 0 <= num_nodes g) by (unfold num_nodes, arrayLength; lia).
  assert (Hgrid : forall wg k c, num_nodes g <= k * wg ->
     dispatchWorkgroups wg k g c = run_tasks g (seqZ 0 (num_nodes g)) c).
  { intros wg k c Hk. unfold dispatchWorkgroups. rewrite Z.mul_comm.
    apply run_tasks_grid; try done. lia. }
  split_and!.
  - intros u c Hu. by apply main_out_of_range.
  - done.
  - intros c. apply Hgrid, ceil_div_grid; done.
  - intros wg1 wg2 c H1 H2. rewrite !Hgrid; [done|by apply ceil_div_grid..].
  - intros H0. rewrite Hgrid by (by apply ceil_div_grid). by rewrite H0.
Qed.

Lemma out_of_range_tasks_are_noops_witness :
  let g := {| row_ptr := [0; 2; 4; 6]; edge_list := [1; 2; 0; 2; 0; 1] |} in
  main g 3 7 = Ok 7 /\
  dispatchWorkgroups 256 1 g 0 = run_tasks g (seqZ 0 3) 0.
Proof.
  intros g.
  destruct (out_of_range_tasks_are_noops g) as (H1 & H2 & _).
  - simpl. lia.
  - vm_compute. reflexivity.
  - split.
    + apply H1. vm_compute. discriminate.
    + apply (H2 256 1 0). vm_compute. discriminate.
Defined.

(** ** Sums over lists *)

Section sums.
Context {A : Type}.
Implicit Types (f h : A -> Z) (l : list A).

Lemma sumZ_app f l1 l2 : sumZ f (l1 ++ l2) = sumZ f l1 + sumZ f l2.
Proof. induction l1 as [|x l1 IH]; simpl; lia. Qed.

Lemma sumZ_ext f h l : (forall x, x ∈ l -> f x = h x) -> sumZ f l = sumZ h l.
Proof.
  induction l as [|x l IH]; intros H; simpl; [done|].
  rewrite H by left. rewrite IH; [done|]. intros y Hy. apply H. by right.
Qed.

Lemma sumZ_zero f l : (forall x, x ∈ l -> f x = 0) -> sumZ f l = 0.
Proof.
  induction l as [|x l IH]; intros H; simpl; [done|].
  rewrite H by left. rewrite IH; [done|]. intros y Hy. apply H. by right.
Qed.

Lemma sumZ_Permutation f l1 l2 : l1 ≡ₚ l2 -> sumZ f l1 = sumZ f l2.
Proof. induction 1; simpl; lia. Qed.

Lemma sumZ_filter f (P : A -> Prop) `{!forall x, Decision (P x)} l :
  sumZ f (filter P l) = sumZ (fun x => if decide (P x) then f x else 0) l.
Proof.
  induction l as [|x l IH]; simpl; [done|].
  rewrite filter_cons. destruct (decide (P x)); simpl; lia.
Qed.

Lemma length_filter_sumZ (P : A -> Prop) `{!forall x, Decision (P x)} l :
  Z.of_nat (length (filter P l)) = sumZ (fun x => if decide (P x) then 1 else 0) l.
Proof.
  induction l as [|x l IH]; simpl; [done|].
  rewrite filter_cons. destruct (decide (P x)); simpl; lia.
Qed.

Lemma length_filter_bind {B} (P : B -> Prop) `{!forall y, Decision (P y)}
    (k : A -> list B) l :
  Z.of_nat (length (filter P (l ≫= k)))
  = sumZ (fun x => Z.of_nat (length (filter P (k x)))) l.
Proof.
  induction l as [|x l IH]; [done|].
  rewrite bind_cons, filter_app, length_app. simpl. lia.
Qed.

Lemma sumZ_fmap {B} (r : B -> A) f (l : list B) :
  sumZ f (r <$> l) = sumZ (fun y => f (r y)) l.
Proof. induction l as [|y l IH]; simpl; [done|]. f_equal. exact IH. Qed.
End sums.

Lemma filter_ext_in {A} (P Q : A -> Prop) `{!forall x, Decision (P x)}
    `{!forall x, Decision (Q x)} (l : list A) :
  (forall x, x ∈ l -> P x <-> Q x) -> filter P l = filter Q l.
Proof.
  induction l as [|x l IH]; intros Hiff; [done|].
  rewrite !filter_cons. rewrite IH by (intros y Hy; apply Hiff; by right).
  pose proof (Hiff x (list_elem_of_here x l)).
  destruct (decide (P x)), (decide (Q x)); tauto || done.
Qed.

(** The members of a duplicate-free list of integers below [n], from [lo]
    on, are the integers of [lo, n) that occur in it. *)
Lemma filter_seqZ_Permutation (l : list Z) lo n :
  NoDup l -> (forall x, x ∈ l -> x < n) ->
  filter (fun x => x ∈ l) (seqZ lo (n - lo)) ≡ₚ filter (fun x => lo <= x) l.
Proof.
  intros Hnd Hlt. apply NoDup_Permutation.
  - apply NoDup_filter, NoDup_seqZ.
  - by apply NoDup_filter.
  - intros x. rewrite !list_elem_of_filter, elem_of_seqZ.
    split; [intros [? ?]; split; [lia|done]|].
    intros [? Hx]. split; [done|]. specialize (Hlt _ Hx). lia.
Qed.

(** ** The merge-join of strictly increasing lists is their intersection *)

Lemma merge_count_sorted l1 : forall l2,
  StronglySorted Z.lt l1 -> StronglySorted Z.lt l2 ->
  merge_count l1 l2 = Z.of_nat (length (filter (fun x => x ∈ l2) l1)).
Proof.
  induction l1 as [|x l1 IH1]; intros l2 H1 H2.
  { by rewrite merge_count_nil_l. }
  apply StronglySorted_cons in H1 as [Hx H1]. rewrite Forall_forall in Hx.
  induction l2 as [|y l2 IH2].
  { rewrite merge_count_nil_r. rewrite filter_cons.
    destruct (decide (x ∈ [])) as [Hin|_]; [by apply elem_of_nil in Hin|].
    clear IH1 Hx H1. induction l1 as [|z l1 IH]; [done|].
    rewrite filter_cons. destruct (decide (z ∈ [])) as [Hin|_];
      [by apply elem_of_nil in Hin|done]. }
  pose proof H2 as H2'.
  apply StronglySorted_cons in H2 as [Hy H2]. rewrite Forall_forall in Hy.
  rewrite merge_count_cons, filter_cons.
  destruct (Z.eqb_spec x y) as [->|Hne].
  - rewrite decide_True by left. simpl.
    rewrite (IH1 l2) by done.
    rewrite (filter_ext_in (fun z => z ∈ y :: l2) (fun z => z ∈ l2)); [lia|].
    intros z Hz. rewrite elem_of_cons. specialize (Hx _ Hz). split; [|tauto].
    intros [->|?]; [lia|done].
  - destruct (Z.ltb_spec x y) as [Hlt|Hge].
    + rewrite decide_False.
      2:{ rewrite elem_of_cons. intros [?|Hin]; [done|]. specialize (Hy _ Hin). lia. }
      by apply IH1.
    + rewrite IH2 by done. rewrite filter_cons.
      assert (Hiff : x ∈ l2 <-> x ∈ y :: l2).
      { rewrite elem_of_cons. split; [tauto|]. intros [?|?]; [lia|done]. }
      assert (Hfilter : filter (fun z => z ∈ l2) l1 = filter (fun z => z ∈ y :: l2) l1).
      { apply filter_ext_in. intros z Hz. rewrite elem_of_cons.
        specialize (Hx _ Hz). split; [tauto|]. intros [->|?]; [lia|done]. }
      rewrite Hfilter.
      destruct (decide (x ∈ l2)), (decide (x ∈ y :: l2)); tauto || done.
Qed.

Lemma filter_Forall_id {A} (P : A -> Prop) `{!forall x, Decision (P x)} (l : list A) :
  Forall P l -> filter P l = l.
Proof.
  induction 1 as [|x l Hx _ IH]; [done|]. by rewrite filter_cons_True, IH.
Qed.

(** The scan of a strictly increasing neighbor list: for every neighbor [v]
    above [u], the later members of the list that are neighbors of [v]. *)
Lemma scan_count_sorted nb u l :
  StronglySorted Z.lt l ->
  (forall v, v ∈ l -> u < v -> StronglySorted Z.lt (nb v)) ->
  scan_count nb u l
  = sumZ (fun v => sumZ (fun w => if decide (w ∈ nb v) then 1 else 0)
                        (filter (fun w => v + 1 <= w) l))
         (filter (fun v => u + 1 <= v) l).
Proof.
  induction 1 as [|v post Hpost IH Hv]; intros Hnb; [done|].
  rewrite Forall_forall in Hv.
  assert (Hrest :
    sumZ (fun v' => sumZ (fun w => if decide (w ∈ nb v') then 1 else 0)
                         (filter (fun w => v' + 1 <= w) (v :: post)))
         (filter (fun v' => u + 1 <= v') post)
    = scan_count nb u post).
  { rewrite IH by (intros w Hw; apply Hnb; by right).
    apply sumZ_ext. intros v' [_ Hv']%list_elem_of_filter.
    rewrite filter_cons_False; [done|]. specialize (Hv _ Hv'). lia. }
  simpl. rewrite filter_cons. destruct (Z.leb_spec v u) as [Hvu|Hvu].
  - rewrite decide_False by lia. rewrite Hrest. lia.
  - rewrite decide_True by lia. simpl. rewrite Hrest. f_equal.
    rewrite filter_cons_False by lia.
    rewrite filter_Forall_id
      by (apply Forall_forall; intros w Hw; specialize (Hv _ Hw); lia).
    rewrite merge_count_sorted; [|done|apply Hnb; [by left|lia]].
    apply length_filter_sumZ.
Qed.

(** ** Triangles of a graph that satisfies the invariants *)

Lemma inv_neighbors_lt g u v :
  csr_invariants g -> 0 <= u < num_nodes g -> v ∈ neighbors g u ->
  0 <= v < num_nodes g.
Proof. intros Hg Hu Hv. by destruct (inv_symmetric g Hg u v Hu Hv). Qed.

Lemma is_triangle_iff g a b c :
  csr_invariants g -> 0 <= a < num_nodes g -> 0 <= b < num_nodes g ->
  is_triangle g (a, b, c) = true
  <-> b ∈ neighbors g a /\ c ∈ neighbors g b /\ c ∈ neighbors g a.
Proof.
  intros Hg Ha Hb. unfold is_triangle, has_edge.
  rewrite !andb_true_iff, !bool_decide_eq_true. split.
  - tauto.
  - intros (Hab & Hbc & Hac).
    destruct (inv_symmetric g Hg a b Ha Hab), (inv_symmetric g Hg b c Hb Hbc),
      (inv_symmetric g Hg a c Ha Hac). tauto.
Qed.

Lemma triangles_sum g : triangles g = sumZ (triangles_at g) (seqZ 0 (num_nodes g)).
Proof. unfold triangles, triples, triangles_at. apply length_filter_bind. Qed.

Lemma triangles_at_scan g a :
  csr_invariants g -> 0 <= a < num_nodes g ->
  triangles_at g a = scan_count (neighbors g) a (neighbors g a).
Proof.
  intros Hg Ha. unfold triangles_at.
  set (n := num_nodes g). set (L := neighbors g a).
  assert (HL : NoDup L) by (apply strictly_increasing_NoDup, (inv_sorted g Hg a Ha)).
  assert (HLn : forall x, x ∈ L -> x < n).
  { intros x Hx. by destruct (inv_neighbors_lt g a x Hg Ha Hx). }
  rewrite length_filter_bind.
  rewrite scan_count_sorted.
  2:{ apply strictly_increasing_strong, (inv_sorted g Hg a Ha). }
  2:{ intros v Hv _. apply strictly_increasing_strong, (inv_sorted g Hg).
      by apply (inv_neighbors_lt g a). }
  rewrite <- (sumZ_Permutation _ _ _ (filter_seqZ_Permutation L (a + 1) n HL HLn)).
  rewrite sumZ_filter. apply sumZ_ext. intros b Hb%elem_of_seqZ.
  rewrite length_filter_bind.
  destruct (decide (b ∈ L)) as [HbL|HbL].
  - rewrite <- (sumZ_Permutation _ _ _ (filter_seqZ_Permutation L (b + 1) n HL HLn)).
    rewrite sumZ_filter. apply sumZ_ext. intros c Hc%elem_of_seqZ.
    rewrite filter_cons, filter_nil.
    pose proof (is_triangle_iff g a b c Hg Ha) as Hiff.
    specialize (Hiff ltac:(fold n; lia)). fold L in Hiff.
    destruct (decide (is_triangle g (a, b, c) = true)) as [Ht|Ht],
      (decide (c ∈ L)), (decide (c ∈ neighbors g b)); simpl; tauto || done.
  - apply sumZ_zero. intros c _. rewrite filter_cons_False; [done|].
    rewrite is_triangle_iff by (done || fold n; lia). tauto.
Qed.

(** The triangles of [a] are those of its pairs [(a, b)]. *)
Lemma triangles_at_on g a :
  triangles_at g a
  = sumZ (triangles_on g a) (seqZ (a + 1) (num_nodes g - (a + 1))).
Proof.
  unfold triangles_at, triangles_on. rewrite length_filter_bind.
  apply sumZ_ext. intros b _. rewrite length_filter_bind, length_filter_sumZ.
  apply sumZ_ext. intros c _. rewrite filter_cons, filter_nil.
  by destruct (decide (is_triangle g (a, b, c) = true)).
Qed.

(** The members of the row of [a] above a neighbor [b] that are neighbors of
    [b] are the third vertices of the triangles on [a] and [b]. *)
Lemma common_neighbors_above g a b :
  csr_invariants g -> 0 <= a < num_nodes g -> b ∈ neighbors g a ->
  Z.of_nat (length (filter (fun w => w ∈ neighbors g b)
                           (filter (fun w => b + 1 <= w) (neighbors g a))))
  = triangles_on g a b.
Proof.
  intros Hg Ha Hb. unfold triangles_on.
  set (n := num_nodes g). set (L := neighbors g a) in *.
  assert (HL : NoDup L) by (apply strictly_increasing_NoDup, (inv_sorted g Hg a Ha)).
  assert (HLn : forall x, x ∈ L -> x < n).
  { intros x Hx. by destruct (inv_neighbors_lt g a x Hg Ha Hx). }
  rewrite !length_filter_sumZ.
  rewrite <- (sumZ_Permutation _ _ _ (filter_seqZ_Permutation L (b + 1) n HL HLn)).
  rewrite sumZ_filter. apply sumZ_ext. intros c _.
  pose proof (is_triangle_iff g a b c Hg Ha) as Hiff.
  specialize (Hiff ltac:(by apply (inv_neighbors_lt g a))). fold L in Hiff.
  destruct (decide (is_triangle g (a, b, c) = true)),
    (decide (c ∈ L)), (decide (c ∈ neighbors g b)); tauto || done.
Qed.

Lemma StronglySorted_filter_above (pre post : list Z) b :
  StronglySorted Z.lt (pre ++ b :: post) ->
  filter (fun w => b + 1 <= w) (pre ++ b :: post) = post.
Proof.
  intros (Hlr & _ & [Hb _]%StronglySorted_cons)%StronglySorted_app.
  rewrite Forall_forall in Hb.
  assert (Hpre : filter (fun w => b + 1 <= w) pre = []).
  { clear Hb. induction pre as [|x pre IH]; [done|].
    rewrite filter_cons_False.
    - apply IH. intros x1 x2 Hx1. apply Hlr. by right.
    - specialize (Hlr x b ltac:(by left) ltac:(by left)). lia. }
  assert (Hpost : filter (fun w => b + 1 <= w) post = post).
  { apply filter_Forall_id, Forall_forall. intros w Hw. specialize (Hb _ Hw). lia. }
  by rewrite filter_app, filter_cons_False, Hpre, Hpost by lia.
Qed.

(** The merge-join of the task of [a] at its neighbor [b], found at index [i]
    of [edge_list]: it starts just past [i] in the row of [a] and adds the
    number of triangles on [a] and [b]. *)
Lemma merge_join_counts g a b i lo hi start_v end_v c :
  csr_invariants g -> 0 <= a < num_nodes g ->
  row_ptr g !! Z.to_nat a = Some lo -> row_ptr g !! Z.to_nat (a + 1) = Some hi ->
  lo <= i < hi -> edge_list g !! Z.to_nat i = Some b -> a < b ->
  row_ptr g !! Z.to_nat b = Some start_v ->
  row_ptr g !! Z.to_nat (b + 1) = Some end_v ->
  is_u32 c ->
  merge_loop (Z.to_nat ((hi - (i + 1)) + (end_v - start_v)))
    g hi end_v (i + 1) start_v c
  = Ok (u32 (c + triangles_on g a b)).
Proof.
  intros Hg Ha Hlo Hhi Hi Hb Hab Hsv Hev Hc.
  pose proof (inv_layout g Hg) as Hlayout.
  destruct (layout_row g a Hlayout Ha) as (lo' & hi' & Hlo' & Hhi' & Hle & Hhi_le & Hnb).
  simplify_eq.
  assert (Hrow : neighbors g a
                 = slice (edge_list g) lo i ++ b :: slice (edge_list g) (i + 1) hi).
  { rewrite Hnb, (slice_split _ lo i hi) by lia.
    by rewrite (slice_cons _ i hi b) by (lia || done). }
  assert (Hbin : b ∈ neighbors g a) by (rewrite Hrow; apply elem_of_app; right; by left).
  pose proof (inv_neighbors_lt g a b Hg Ha Hbin) as Hbn.
  destruct (layout_row g b Hlayout Hbn) as (sv & ev & Hsv' & Hev' & Hle_v & Hev_le & Hnb_v).
  simplify_eq.
  pose proof (strictly_increasing_strong _ (inv_sorted g Hg a Ha)) as Hsorted.
  rewrite merge_loop_spec;
    [|lia|lia|lia|lia|apply (layout_edge_list_len g Hlayout)|done|lia].
  do 3 f_equal. rewrite <- Hnb_v.
  rewrite merge_count_sorted.
  - rewrite <- (common_neighbors_above g a b) by done.
    by rewrite Hrow, StronglySorted_filter_above by (by rewrite <- Hrow).
  - rewrite Hrow in Hsorted.
    by apply StronglySorted_app in Hsorted as (_ & _ & [_ ?]%StronglySorted_cons).
  - by apply strictly_increasing_strong, (inv_sorted g Hg).
Qed.

(** The contributions of the tasks of a graph that satisfies the invariants. *)
Lemma run_tasks_spec g ids : forall c,
  csr_layout g -> is_u32 c ->
  (forall u v, 0 <= u < num_nodes g -> v ∈ neighbors g u -> v < num_nodes g) ->
  Forall (fun u => 0 <= u < num_nodes g) ids ->
  run_tasks g ids c
  = Ok (u32 (c + sumZ (fun u => scan_count (neighbors g) u (neighbors g u)) ids)).
Proof.
  induction ids as [|u ids IH]; intros c Hg Hc Hrange Hids; simpl.
  - by rewrite Z.add_0_r, u32_small.
  - apply Forall_cons in Hids as [Hu Hids].
    rewrite main_spec by eauto. simpl.
    rewrite IH; [|done|apply u32_is_u32|done|done].
    f_equal. rewrite u32_add_l. f_equal. lia.
Qed.

Lemma run_tasks_triangles g c :
  csr_invariants g -> is_u32 c ->
  run_tasks g (seqZ 0 (num_nodes g)) c = Ok (u32 (c + triangles g)).
Proof.
  intros Hg Hc. rewrite run_tasks_spec.
  - do 3 f_equal. rewrite triangles_sum. apply sumZ_ext.
    intros u Hu%elem_of_seqZ. symmetry. apply triangles_at_scan; [done|lia].
  - apply Hg.
  - done.
  - intros u v Hu Hv. by destruct (inv_neighbors_lt g u v Hg Hu Hv).
  - apply Forall_forall. intros u Hu%elem_of_seqZ. lia.
Qed.

(** ** The state built from the records *)

Lemma elem_of_set_add x y s : y ∈ set_add x s <-> y = x \/ y ∈ s.
Proof.
  unfold set_add. destruct (decide (x ∈ s)).
  - split; [auto|]. by intros [->|?].
  - rewrite elem_of_app, list_elem_of_singleton. tauto.
Qed.

Lemma NoDup_set_add x s : NoDup s -> NoDup (set_add x s).
Proof.
  intros Hs. unfold set_add. destruct (decide (x ∈ s)); [done|].
  apply NoDup_app. split_and!; [done| |apply NoDup_singleton].
  intros y Hy ->%list_elem_of_singleton. done.
Qed.

Lemma adj_ensure_lookup k m x :
  adj_ensure k m !! x
  = match m !! x with
    | Some s => Some s
    | None => if decide (x = k) then Some [] else None
    end.
Proof.
  unfold adj_ensure. destruct (m !! k) as [s|] eqn:Hk.
  - destruct (m !! x) eqn:Hx; [done|]. destruct (decide (x = k)); [congruence|done].
  - destruct (decide (x = k)) as [->|Hne].
    + by rewrite lookup_insert_eq, Hk.
    + rewrite lookup_insert_ne by done. by destruct (m !! x).
Qed.

Lemma adj_add_lookup k y m x :
  adj_add k y m !! x
  = if decide (x = k) then set_add y <$> m !! k else m !! x.
Proof.
  unfold adj_add. destruct (m !! k) as [s|] eqn:Hk.
  - destruct (decide (x = k)) as [->|Hne].
    + by rewrite lookup_insert_eq.
    + by rewrite lookup_insert_ne.
  - destruct (decide (x = k)) as [->|Hne]; [by rewrite Hk|done].
Qed.

(** The neighbor set of [x] after the record [(u, v)]. *)
Lemma add_record_lookup st u v x :
  adj (add_record st u v) !! x
  = if decide (x = u \/ x = v) then
      let s := default [] (adj st !! x) in
      Some (if decide (u = v) then s
            else if decide (x = u) then set_add v s else set_add u s)
    else adj st !! x.
Proof.
  unfold add_record. simpl.
  destruct (decide (u = v)) as [->|Huv].
  - rewrite !adj_ensure_lookup.
    repeat case_decide; destruct (adj st !! x); simpl; try done; tauto.
  - rewrite !adj_add_lookup, !adj_ensure_lookup.
    repeat case_decide; simplify_eq; try tauto;
      repeat match goal with
             | |- context [adj st !! ?k] => destruct (adj st !! k)
             end; simpl; try done;
      repeat case_decide; simplify_eq; done || tauto.
Qed.

Lemma foldl_process_line st lines :
  foldl process_line st lines
  = foldl (fun st '(u, v) => add_record st u v) st (records lines).
Proof.
  revert st. induction lines as [|line lines IH]; intros st; [done|].
  simpl. rewrite IH. unfold records. simpl.
  unfold process_line, record_of.
  destruct (parse_record line) as [[u|] [v|]]; done.
Qed.

Lemma mentions_snoc recs u v x :
  mentions (recs ++ [(u, v)]) x <-> mentions recs x \/ x = u \/ x = v.
Proof.
  unfold mentions. split.
  - intros (u' & v' & [Hin|Hin%list_elem_of_singleton]%elem_of_app & Hx).
    + left. eauto.
    + simplify_eq. tauto.
  - intros [(u' & v' & Hin & Hx)|Hx].
    + exists u', v'. split; [apply elem_of_app; by left|done].
    + exists u, v. split; [apply elem_of_app; right; by apply list_elem_of_singleton|done].
Qed.

Lemma links_snoc recs u v x y :
  links (recs ++ [(u, v)]) x y
  <-> links recs x y \/ (u ≠ v /\ (x = u /\ y = v \/ x = v /\ y = u)).
Proof.
  unfold links. split.
  - intros (u' & v' & [Hin|Hin%list_elem_of_singleton]%elem_of_app & Hx).
    + left. eauto.
    + simplify_eq. tauto.
  - intros [(u' & v' & Hin & Hx)|Hx].
    + exists u', v'. split; [apply elem_of_app; by left|done].
    + exists u, v. split; [apply elem_of_app; right; by apply list_elem_of_singleton|done].
Qed.

Lemma links_sym recs x y : links recs x y -> links recs y x.
Proof. intros (u & v & ? & ? & ?). exists u, v. tauto. Qed.

Lemma links_irrefl recs x : ~ links recs x x.
Proof. intros (u & v & ? & ? & [[??]|[??]]); congruence. Qed.

Lemma links_mentions recs x y : links recs x y -> mentions recs x /\ mentions recs y.
Proof. intros (u & v & ? & ? & [[??]|[??]]); split; exists u, v; tauto. Qed.

Lemma add_record_neighbors st u v x :
  default [] (adj (add_record st u v) !! x)
  = let s := default [] (adj st !! x) in
    if decide (u = v) then s
    else if decide (x = u) then set_add v s
    else if decide (x = v) then set_add u s
    else s.
Proof.
  rewrite add_record_lookup. simpl.
  repeat case_decide; simplify_eq; try done; tauto.
Qed.

(** What the state built from a list of records holds. *)
Lemma records_state recs :
  let st := foldl (fun st '(u, v) => add_record st u v)
                  {| adj := ∅; allNodeIds := [] |} recs in
  (forall x, x ∈ allNodeIds st <-> mentions recs x) /\
  (forall x, is_Some (adj st !! x) <-> mentions recs x) /\
  (forall x y, y ∈ default [] (adj st !! x) <-> links recs x y) /\
  NoDup (allNodeIds st) /\
  (forall x, NoDup (default [] (adj st !! x))).
Proof.
  induction recs as [|[u v] recs IH] using rev_ind.
  - simpl. split_and!.
    + intros x. split; [by intros ?%elem_of_nil|].
      by intros (? & ? & ?%elem_of_nil & _).
    + intros x. rewrite lookup_empty. split; [by intros [??]|].
      by intros (? & ? & ?%elem_of_nil & _).
    + intros x y. rewrite lookup_empty. simpl. split; [by intros ?%elem_of_nil|].
      by intros (? & ? & ?%elem_of_nil & _).
    + constructor.
    + intros x. rewrite lookup_empty. constructor.
  - rewrite foldl_app. cbn [foldl].
    set (st := foldl (fun st '(u, v) => add_record st u v)
                     {| adj := ∅; allNodeIds := [] |} recs) in *.
    destruct IH as (Hids & Hkeys & Hadj & Hnd & Hnds).
    split_and!.
    + intros x. rewrite mentions_snoc, <- Hids. unfold add_record. simpl.
      rewrite !elem_of_set_add. tauto.
    + intros x. rewrite mentions_snoc, <- Hkeys, add_record_lookup.
      case_decide; [|tauto]. split; [tauto|]. by eexists.
    + intros x y. rewrite links_snoc, <- Hadj, add_record_neighbors. simpl.
      repeat case_decide; simplify_eq; rewrite ?elem_of_set_add; tauto.
    + unfold add_record. simpl. by do 2 apply NoDup_set_add.
    + intros x. rewrite add_record_neighbors. simpl.
      repeat case_decide; try apply NoDup_set_add; apply Hnds.
Qed.

(** ** The emission loop *)

Lemma emit_node_fold m nodeMap sortedNodeIds (j : nat) :
  let rows := row_data m nodeMap <$> sortedNodeIds in
  let n := length sortedNodeIds in
  (j <= n)%nat ->
  foldl (emit_node m nodeMap sortedNodeIds) (replicate (S n) 0, [], 0) (seq 0 j)
  = ((u32 <$> ((fun k => Z.of_nat (length (concat (take k rows)))) <$> seq 0 j))
       ++ replicate (S n - j) 0,
     concat (take j rows),
     Z.of_nat (length (concat (take j rows)))).
Proof.
  intros rows n. induction j as [|j IH]; intros Hj; [done|].
  rewrite seq_S, foldl_app, IH by lia. cbn [foldl]. unfold emit_node.
  destruct (lookup_lt_is_Some_2 sortedNodeIds j) as [x Hx]; [fold n; lia|].
  assert (Hrow : rows !! j = Some (row_data m nodeMap x)).
  { unfold rows. by rewrite list_lookup_fmap, Hx. }
  rewrite (take_S_r _ _ _ Hrow), concat_app, !fmap_app. simpl.
  rewrite app_nil_r, length_app.
  rewrite insert_app_r_alt by (rewrite !length_fmap, length_seq; lia).
  rewrite !length_fmap, length_seq, Nat.sub_diag.
  replace (S n - j)%nat with (S (n - j))%nat by lia. simpl.
  replace (n - j)%nat with (S n - S j)%nat by lia.
  rewrite <- app_assoc. simpl.
  rewrite Hx. simpl. unfold row_data.
  destruct (m !! x) as [s|]; simpl.
  - rewrite !length_fmap. do 2 f_equal. lia.
  - rewrite app_nil_r. do 2 f_equal. lia.
Qed.

Lemma csr_of_lines_rows lines :
  let ids := node_ids lines in
  let rows := row_data (adj (build_state lines)) (make_nodeMap ids) <$> ids in
  csr_of_lines lines
  = {| numNodes := Z.of_nat (length ids);
       rowPtr := u32 <$> offsets rows;
       edgeList := ToUint32 <$> concat rows |}.
Proof.
  intros ids rows. unfold csr_of_lines.
  fold (build_state lines). fold (node_ids lines). fold ids.
  rewrite emit_node_fold by done. fold rows. cbv beta iota.
  assert (Hlen : length rows = length ids) by (unfold rows; by rewrite length_fmap).
  replace (S (length ids) - length ids)%nat with 1%nat by lia.
  rewrite insert_app_r_alt by (rewrite !length_fmap, length_seq; lia).
  rewrite !length_fmap, length_seq, Nat.sub_diag.
  rewrite <- Hlen, firstn_all.
  unfold offsets. rewrite seq_S, !fmap_app. simpl. by rewrite ?firstn_all.
Qed.

(** ** The CSR form of a list of rows *)

Section rows.
Context {A : Type}.
Implicit Types (rows : list (list A)).

Lemma length_offsets rows : length (offsets rows) = S (length rows).
Proof. unfold offsets. by rewrite length_fmap, length_seq. Qed.

Lemma offsets_lookup rows (k : nat) :
  (k <= length rows)%nat ->
  offsets rows !! k = Some (Z.of_nat (length (concat (take k rows)))).
Proof.
  intros Hk. unfold offsets. rewrite list_lookup_fmap, lookup_seq_lt by lia. done.
Qed.

Lemma offsets_fmap {B} (f : A -> B) rows :
  offsets ((fun row : list A => f <$> row) <$> rows) = offsets rows.
Proof.
  unfold offsets. rewrite length_fmap. apply list_fmap_ext. intros _ k _.
  f_equal. rewrite <- fmap_take. clear.
  induction (take k rows) as [|r rs IH]; [done|].
  rewrite fmap_cons. simpl. rewrite !length_app, length_fmap. lia.
Qed.

Lemma length_concat_take_le rows (k : nat) :
  (length (concat (take k rows)) <= length (concat rows))%nat.
Proof.
  rewrite <- (take_drop k rows) at 2. rewrite concat_app, length_app. lia.
Qed.

Lemma length_concat_take_S rows (k : nat) row :
  rows !! k = Some row ->
  length (concat (take (S k) rows)) = (length (concat (take k rows)) + length row)%nat.
Proof.
  intros Hrow. rewrite (take_S_r _ _ _ Hrow), concat_app, length_app. simpl.
  rewrite app_nil_r. done.
Qed.
End rows.

Lemma slice_concat (rows : list (list Z)) (k : nat) row :
  rows !! k = Some row ->
  slice (concat rows) (Z.of_nat (length (concat (take k rows))))
        (Z.of_nat (length (concat (take (S k) rows)))) = row.
Proof.
  intros Hrow. unfold slice. rewrite !Nat2Z.id.
  rewrite (length_concat_take_S _ _ _ Hrow).
  assert (Hsplit : concat rows
    = concat (take k rows) ++ row ++ concat (drop (S k) rows)).
  { rewrite <- (take_drop_middle _ _ _ Hrow) at 1. by rewrite concat_app. }
  rewrite Hsplit, drop_app_length.
  replace (length (concat (take k rows)) + length row - length (concat (take k rows)))%nat
    with (length row) by lia.
  by rewrite take_app_length.
Qed.

Lemma num_nodes_csr_of_rows rows :
  num_nodes (csr_of_rows rows) = Z.of_nat (length rows).
Proof.
  unfold num_nodes, arrayLength, csr_of_rows. cbn [row_ptr].
  rewrite length_offsets. lia.
Qed.

Lemma neighbors_csr_of_rows rows (k : nat) row :
  rows !! k = Some row -> neighbors (csr_of_rows rows) (Z.of_nat k) = row.
Proof.
  intros Hrow. pose proof (lookup_lt_Some _ _ _ Hrow) as Hk.
  unfold neighbors, csr_of_rows. cbn [row_ptr edge_list].
  replace (Z.to_nat (Z.of_nat k + 1)) with (S k) by lia. rewrite Nat2Z.id.
  rewrite !offsets_lookup by lia. by apply slice_concat.
Qed.

Lemma csr_of_rows_layout rows :
  Z.of_nat (length rows) + 1 < u32_modulus ->
  Z.of_nat (length (concat rows)) < u32_modulus ->
  Forall is_u32 (concat rows) ->
  csr_layout (csr_of_rows rows).
Proof.
  intros Hn Hlen Hu. split; unfold csr_of_rows; cbn [row_ptr edge_list].
  - rewrite length_offsets. lia.
  - unfold arrayLength. rewrite length_offsets. lia.
  - done.
  - apply Forall_forall. intros x (k & Hk)%list_elem_of_lookup_1.
    pose proof (lookup_lt_Some _ _ _ Hk) as Hlt. rewrite length_offsets in Hlt.
    rewrite offsets_lookup in Hk by lia. simplify_eq.
    pose proof (length_concat_take_le rows k). unfold is_u32. lia.
  - done.
  - intros i lo hi Hlo Hhi.
    pose proof (lookup_lt_Some _ _ _ Hhi) as Hlt. rewrite length_offsets in Hlt.
    rewrite offsets_lookup in Hlo, Hhi by lia. simplify_eq.
    destruct (lookup_lt_is_Some_2 rows i) as [row Hrow]; [lia|].
    rewrite (length_concat_take_S _ _ _ Hrow). lia.
  - fold (csr_of_rows rows).
    rewrite num_nodes_csr_of_rows, Nat2Z.id, offsets_lookup by lia.
    by rewrite firstn_all.
Qed.

(** ** Sorting ids and ranking them *)

Lemma sort_numbers_Permutation l : sort_numbers l ≡ₚ l.
Proof. apply merge_sort_Permutation. Qed.

Lemma elem_of_sort_numbers l x : x ∈ sort_numbers l <-> x ∈ l.
Proof. by rewrite sort_numbers_Permutation. Qed.

Lemma NoDup_sort_numbers l : NoDup l -> NoDup (sort_numbers l).
Proof. by rewrite sort_numbers_Permutation. Qed.

Lemma sort_numbers_strong l :
  NoDup l -> StronglySorted Z.lt (sort_numbers l).
Proof.
  intros Hnd%NoDup_sort_numbers.
  pose proof (StronglySorted_merge_sort Z.le l) as Hs. fold (sort_numbers l) in Hs.
  induction Hs as [|x s Hs IH Hx]; constructor.
  - apply IH. by apply NoDup_cons in Hnd as [_ ?].
  - apply NoDup_cons in Hnd as [Hnotin _].
    rewrite Forall_forall in Hx |- *. intros y Hy. specialize (Hx _ Hy).
    assert (x ≠ y) by (intros ->; done). lia.
Qed.

Lemma StronglySorted_lookup_lt (l : list Z) (i j : nat) x y :
  StronglySorted Z.lt l -> l !! i = Some x -> l !! j = Some y ->
  (i < j)%nat -> x < y.
Proof.
  intros Hl. revert i j. induction Hl as [|z l Hl IH Hz]; intros i j Hi Hj Hij.
  - done.
  - destruct j as [|j]; [lia|]. destruct i as [|i]; simpl in *.
    + simplify_eq. rewrite Forall_forall in Hz. apply Hz.
      by apply list_elem_of_lookup_2 in Hj.
    + apply (IH i j); [done|done|lia].
Qed.

Lemma make_nodeMap_snoc ids y :
  make_nodeMap (ids ++ [y]) = <[y := Z.of_nat (length ids)]> (make_nodeMap ids).
Proof.
  unfold make_nodeMap. rewrite imap_app, foldl_app. simpl.
  by rewrite Nat.add_0_r.
Qed.

Lemma make_nodeMap_lookup_Some ids x i :
  make_nodeMap ids !! x = Some i -> 0 <= i /\ ids !! Z.to_nat i = Some x.
Proof.
  revert i. induction ids as [|y ids IH] using rev_ind; intros i.
  - unfold make_nodeMap. simpl. by rewrite lookup_empty.
  - rewrite make_nodeMap_snoc. destruct (decide (y = x)) as [->|Hne].
    + rewrite lookup_insert_eq. intros [= <-]. split; [lia|].
      rewrite Nat2Z.id. by rewrite lookup_app_r, Nat.sub_diag.
    + rewrite lookup_insert_ne by done. intros [? Hi]%IH. split; [done|].
      by apply lookup_app_l_Some.
Qed.

Lemma make_nodeMap_lookup ids (i : nat) x :
  NoDup ids -> ids !! i = Some x -> make_nodeMap ids !! x = Some (Z.of_nat i).
Proof.
  revert i. induction ids as [|y ids IH] using rev_ind; intros i Hnd Hi; [done|].
  rewrite make_nodeMap_snoc.
  apply NoDup_app in Hnd as (Hnd & Hdisj & _).
  apply lookup_app_Some in Hi as [Hi|[Hlen Hi]].
  - rewrite lookup_insert_ne; [by apply IH|].
    intros ->. apply (Hdisj x); [by eapply list_elem_of_lookup_2|by left].
  - apply list_lookup_singleton_Some in Hi as [Hi ->].
    rewrite lookup_insert_eq. f_equal. lia.
Qed.

Lemma rank_lookup ids (i : nat) x :
  NoDup ids -> ids !! i = Some x -> rank ids x = Z.of_nat i.
Proof. intros Hnd Hi. unfold rank. by rewrite (make_nodeMap_lookup _ i). Qed.

Lemma rank_bounds ids x :
  x ∈ ids -> 0 <= rank ids x < Z.of_nat (length ids).
Proof.
  intros (i & Hi)%list_elem_of_lookup_1. unfold rank.
  destruct (make_nodeMap ids !! x) as [r|] eqn:Hr; simpl.
  - apply make_nodeMap_lookup_Some in Hr as [? Hr%lookup_lt_Some]. lia.
  - apply lookup_lt_Some in Hi. lia.
Qed.

Lemma rank_lt_iff ids x y :
  StronglySorted Z.lt ids -> x ∈ ids -> y ∈ ids ->
  rank ids x < rank ids y <-> x < y.
Proof.
  intros Hs (i & Hi)%list_elem_of_lookup_1 (j & Hj)%list_elem_of_lookup_1.
  assert (Hnd : NoDup ids) by (by apply strictly_increasing_NoDup, StronglySorted_Sorted).
  rewrite (rank_lookup _ i x), (rank_lookup _ j y) by done.
  destruct (Nat.lt_trichotomy i j) as [Hij|[->|Hij]].
  - pose proof (StronglySorted_lookup_lt _ _ _ _ _ Hs Hi Hj Hij). lia.
  - simplify_eq. lia.
  - pose proof (StronglySorted_lookup_lt _ _ _ _ _ Hs Hj Hi Hij). lia.
Qed.

Lemma rank_inj ids x y :
  StronglySorted Z.lt ids -> x ∈ ids -> y ∈ ids ->
  rank ids x = rank ids y -> x = y.
Proof.
  intros Hs Hx Hy Heq.
  pose proof (rank_lt_iff ids x y Hs Hx Hy).
  pose proof (rank_lt_iff ids y x Hs Hy Hx). lia.
Qed.

(** ** The graph that the builder lays out *)

Lemma build_state_records lines :
  build_state lines
  = foldl (fun st '(u, v) => add_record st u v)
          {| adj := ∅; allNodeIds := [] |} (records lines).
Proof. apply foldl_process_line. Qed.

Lemma elem_of_node_ids lines x :
  x ∈ node_ids lines <-> mentions (records lines) x.
Proof.
  unfold node_ids. rewrite elem_of_sort_numbers, build_state_records.
  apply (records_state (records lines)).
Qed.

Lemma node_ids_strong lines : StronglySorted Z.lt (node_ids lines).
Proof.
  apply sort_numbers_strong. rewrite build_state_records.
  apply (records_state (records lines)).
Qed.

Lemma NoDup_node_ids lines : NoDup (node_ids lines).
Proof. apply strictly_increasing_NoDup, StronglySorted_Sorted, node_ids_strong. Qed.

Lemma elem_of_ext_neighbors lines x y :
  y ∈ ext_neighbors lines x <-> links (records lines) x y.
Proof.
  unfold ext_neighbors. rewrite elem_of_sort_numbers, build_state_records.
  apply (records_state (records lines)).
Qed.

Lemma ext_neighbors_strong lines x : StronglySorted Z.lt (ext_neighbors lines x).
Proof.
  apply sort_numbers_strong. rewrite build_state_records.
  apply (records_state (records lines)).
Qed.

Lemma ext_neighbors_node_ids lines x y :
  y ∈ ext_neighbors lines x -> x ∈ node_ids lines /\ y ∈ node_ids lines.
Proof.
  rewrite elem_of_ext_neighbors, !elem_of_node_ids. apply links_mentions.
Qed.

Lemma length_records lines : (length (records lines) <= length lines)%nat.
Proof.
  unfold records. induction lines as [|line lines IH]; csimpl; [done|].
  destruct (record_of line); csimpl; lia.
Qed.

(** At most two ids and two edge endpoints for each record. *)
Lemma length_node_ids lines :
  (length (node_ids lines) <= 2 * length (records lines))%nat.
Proof.
  set (ends := records lines ≫= fun '(u, v) => [u; v]).
  assert (Hlen : length ends = (2 * length (records lines))%nat).
  { unfold ends. induction (records lines) as [|[u v] recs IH]; [done|].
    rewrite bind_cons, length_app, IH. simpl. lia. }
  rewrite <- Hlen. apply submseteq_length, NoDup_submseteq; [apply NoDup_node_ids|].
  intros x (u & v & Hin & Hx)%elem_of_node_ids.
  apply list_elem_of_bind. exists (u, v). split; [|done].
  destruct Hx as [-> | ->]; [by left|right; by left].
Qed.

Lemma length_concat_ext_neighbors lines :
  (length (concat (ext_neighbors lines <$> node_ids lines))
   <= 2 * length (records lines))%nat.
Proof.
  set (pairs := node_ids lines ≫= fun x => (fun y => (x, y)) <$> ext_neighbors lines x).
  set (ends := records lines ≫= fun '(u, v) => [(u, v); (v, u)]).
  assert (Hends : length ends = (2 * length (records lines))%nat).
  { unfold ends. induction (records lines) as [|[u v] recs IH]; [done|].
    rewrite bind_cons, length_app, IH. simpl. lia. }
  assert (Hpairs : length pairs = length (concat (ext_neighbors lines <$> node_ids lines))).
  { unfold pairs. induction (node_ids lines) as [|x ids IH]; [done|].
    rewrite bind_cons, fmap_cons. simpl. rewrite !length_app, length_fmap, IH. done. }
  rewrite <- Hends, <- Hpairs. apply submseteq_length, NoDup_submseteq.
  - apply NoDup_bind.
    + intros x1 x2 [a b] _ _ (? & ? & _)%list_elem_of_fmap (? & ? & _)%list_elem_of_fmap.
      congruence.
    + intros x _. apply NoDup_fmap_2; [intros ???; congruence|].
      apply strictly_increasing_NoDup, StronglySorted_Sorted, ext_neighbors_strong.
    + apply NoDup_node_ids.
  - intros [a b] (x & (y & [= -> ->] & Hy)%list_elem_of_fmap & _)%list_elem_of_bind.
    apply elem_of_ext_neighbors in Hy as (u & v & Hin & _ & Hxy).
    apply list_elem_of_bind. exists (u, v). split; [|done].
    destruct Hxy as [[-> ->]|[-> ->]]; [by left|right; by left].
Qed.

Lemma concat_fmap_fmap {A B} (f : A -> B) (rows : list (list A)) :
  concat ((fun row : list A => f <$> row) <$> rows) = f <$> concat rows.
Proof.
  induction rows as [|row rows IH]; [done|].
  rewrite fmap_cons. simpl. by rewrite fmap_app, IH.
Qed.

Lemma rows_fmap_compose {A B C} (f : B -> C) (g : A -> list B) (l : list A) :
  (fun x => f <$> g x) <$> l = (fun row : list B => f <$> row) <$> (g <$> l).
Proof. by rewrite <- list_fmap_compose. Qed.

Lemma ToUint32_nodeMap ids y :
  Z.of_nat (length ids) < u32_modulus -> y ∈ ids ->
  ToUint32 (make_nodeMap ids !! y) = rank ids y.
Proof.
  intros Hlen Hy. pose proof (rank_bounds ids y Hy) as Hr. unfold rank in *.
  destruct (make_nodeMap ids !! y) as [r|]; simpl in *; [|done].
  apply u32_small. unfold is_u32. lia.
Qed.

Lemma internal_rows_concat lines :
  concat (internal_rows lines)
  = rank (node_ids lines) <$> concat (ext_neighbors lines <$> node_ids lines).
Proof.
  unfold internal_rows.
  rewrite (rows_fmap_compose (rank (node_ids lines)) (ext_neighbors lines)).
  apply concat_fmap_fmap.
Qed.

Lemma elem_of_concat {A} (rows : list (list A)) y :
  y ∈ concat rows <-> exists row, row ∈ rows /\ y ∈ row.
Proof.
  induction rows as [|r rows IH]; simpl.
  - split; [by intros ?%elem_of_nil|by intros (? & ?%elem_of_nil & _)].
  - rewrite elem_of_app, IH. split.
    + intros [?|(row & ? & ?)]; [exists r; split; [by left|done]|].
      exists row. split; [by right|done].
    + intros (row & [->|?]%elem_of_cons & ?); [by left|right; eauto].
Qed.

Lemma elem_of_concat_ext_neighbors lines y :
  y ∈ concat (ext_neighbors lines <$> node_ids lines) -> y ∈ node_ids lines.
Proof.
  intros (row & (x & -> & _)%list_elem_of_fmap & Hy)%elem_of_concat.
  by apply ext_neighbors_node_ids in Hy as [_ ?].
Qed.

(** The buffers handed to the kernel are the CSR form of the internal rows,
    as long as the 32-bit entries hold the offsets and the ids. *)
Lemma csr_of_lines_storage lines :
  Z.of_nat (length lines) < 2 ^ 31 ->
  storage_of (csr_of_lines lines) = csr_of_rows (internal_rows lines) /\
  numNodes (csr_of_lines lines) = Z.of_nat (length (internal_rows lines)).
Proof.
  intros Hsize.
  pose proof (length_records lines) as Hrecs.
  pose proof (length_node_ids lines) as Hids.
  pose proof (length_concat_ext_neighbors lines) as Hends.
  assert (Hn : Z.of_nat (length (node_ids lines)) < u32_modulus)
    by (rewrite u32_modulus_eq; lia).
  rewrite csr_of_lines_rows. unfold storage_of, csr_of_rows. cbn [rowPtr edgeList numNodes].
  split; [f_equal|].
  - unfold row_data, internal_rows. fold (ext_neighbors lines).
    rewrite (rows_fmap_compose (make_nodeMap (node_ids lines) !!.) (ext_neighbors lines)).
    rewrite (rows_fmap_compose (rank (node_ids lines)) (ext_neighbors lines)).
    rewrite !offsets_fmap.
    set (offs := offsets (ext_neighbors lines <$> node_ids lines)).
    rewrite <- (list_fmap_id offs) at 2. apply list_fmap_ext.
    intros i off Hoff. simpl. apply u32_small.
    pose proof (lookup_lt_Some _ _ _ Hoff) as Hi. unfold offs in *.
    rewrite length_offsets in Hi. rewrite offsets_lookup in Hoff by lia. simplify_eq.
    pose proof (length_concat_take_le (ext_neighbors lines <$> node_ids lines) i).
    unfold is_u32. rewrite u32_modulus_eq. lia.
  - rewrite internal_rows_concat. unfold row_data. fold (ext_neighbors lines).
    rewrite (rows_fmap_compose (make_nodeMap (node_ids lines) !!.) (ext_neighbors lines)).
    rewrite concat_fmap_fmap, <- list_fmap_compose.
    apply list_fmap_ext. intros i y Hy. simpl.
    apply ToUint32_nodeMap; [done|].
    apply elem_of_concat_ext_neighbors. by eapply list_elem_of_lookup_2.
  - unfold internal_rows. by rewrite length_fmap.
Qed.

Lemma StronglySorted_fmap_mono (f : Z -> Z) (l : list Z) :
  StronglySorted Z.lt l ->
  (forall x y, x ∈ l -> y ∈ l -> x < y -> f x < f y) ->
  StronglySorted Z.lt (f <$> l).
Proof.
  induction 1 as [|x l Hl IH Hx]; intros Hf; [constructor|].
  rewrite fmap_cons. constructor.
  - apply IH. intros y z Hy Hz. apply Hf; by right.
  - rewrite Forall_fmap. rewrite Forall_forall in Hx |- *.
    intros y Hy. simpl. apply Hf; [by left|by right|by apply Hx].
Qed.

Lemma internal_rows_lookup lines (k : nat) x :
  node_ids lines !! k = Some x ->
  internal_rows lines !! k
  = Some (rank (node_ids lines) <$> ext_neighbors lines x).
Proof. intros Hx. unfold internal_rows. by rewrite list_lookup_fmap, Hx. Qed.

(** The internal row of the node of rank [i]. *)
Lemma internal_neighbors lines i :
  0 <= i < Z.of_nat (length (node_ids lines)) ->
  exists x, node_ids lines !! Z.to_nat i = Some x /\
    rank (node_ids lines) x = i /\
    neighbors (csr_of_rows (internal_rows lines)) i
    = rank (node_ids lines) <$> ext_neighbors lines x.
Proof.
  intros Hi.
  destruct (lookup_lt_is_Some_2 (node_ids lines) (Z.to_nat i)) as [x Hx]; [lia|].
  exists x. split_and!; [done| |].
  - rewrite (rank_lookup _ _ _ (NoDup_node_ids lines) Hx). lia.
  - rewrite <- (Z2Nat.id i) at 1 by lia.
    by apply neighbors_csr_of_rows, internal_rows_lookup.
Qed.

Lemma elem_of_internal_neighbors lines x v :
  x ∈ node_ids lines ->
  v ∈ rank (node_ids lines) <$> ext_neighbors lines x
  <-> exists y, y ∈ node_ids lines /\ v = rank (node_ids lines) y /\
        links (records lines) x y.
Proof.
  intros Hx. rewrite list_elem_of_fmap. split.
  - intros (y & -> & Hy). exists y. split_and!; [|done|by apply elem_of_ext_neighbors].
    by apply ext_neighbors_node_ids in Hy as [_ ?].
  - intros (y & _ & -> & Hy). exists y. split; [done|by apply elem_of_ext_neighbors].
Qed.

(** The graph that the builder lays out satisfies the invariants. *)
Lemma built_invariants lines :
  Z.of_nat (length lines) < 2 ^ 31 ->
  csr_invariants (csr_of_rows (internal_rows lines)).
Proof.
  intros Hsize.
  pose proof (length_records lines) as Hrecs.
  pose proof (length_node_ids lines) as Hids.
  pose proof (length_concat_ext_neighbors lines) as Hends.
  pose proof (node_ids_strong lines) as Hsorted.
  assert (Hlen : length (internal_rows lines) = length (node_ids lines))
    by (unfold internal_rows; by rewrite length_fmap).
  split.
  - apply csr_of_rows_layout.
    + rewrite Hlen, u32_modulus_eq. lia.
    + rewrite internal_rows_concat, length_fmap, u32_modulus_eq. lia.
    + rewrite internal_rows_concat. apply Forall_fmap, Forall_forall.
      intros y Hy%elem_of_concat_ext_neighbors. simpl.
      pose proof (rank_bounds _ _ Hy). unfold is_u32. rewrite u32_modulus_eq. lia.
  - intros i Hi. rewrite num_nodes_csr_of_rows, Hlen in Hi.
    destruct (internal_neighbors lines i Hi) as (x & Hx & Hr & ->).
    apply StronglySorted_Sorted, StronglySorted_fmap_mono;
      [apply ext_neighbors_strong|].
    intros y z Hy Hz Hyz. apply rank_lt_iff; try done.
    + by apply ext_neighbors_node_ids in Hy as [_ ?].
    + by apply ext_neighbors_node_ids in Hz as [_ ?].
  - intros i Hi. rewrite num_nodes_csr_of_rows, Hlen in Hi.
    destruct (internal_neighbors lines i Hi) as (x & Hx & Hr & ->).
    apply list_elem_of_lookup_2 in Hx.
    intros (y & Hy & Heq & Hxy)%elem_of_internal_neighbors; [|done].
    rewrite <- Hr in Heq. apply rank_inj in Heq; [|done..]. subst y.
    by apply links_irrefl in Hxy.
  - intros u v Hu. rewrite num_nodes_csr_of_rows, Hlen in Hu |- *.
    destruct (internal_neighbors lines u Hu) as (x & Hx & Hr & ->).
    apply list_elem_of_lookup_2 in Hx.
    intros (y & Hy & -> & Hxy)%elem_of_internal_neighbors; [|done].
    pose proof (rank_bounds _ _ Hy) as Hv. split; [done|].
    destruct (internal_neighbors lines _ Hv) as (y' & Hy' & Hr' & ->).
    apply list_elem_of_lookup_2 in Hy'.
    apply rank_inj in Hr'; [|done..]. subst y'.
    apply elem_of_internal_neighbors; [done|].
    exists x. split_and!; [done|done|by apply links_sym].
Qed.

Lemma built_graph lines :
  Z.of_nat (length lines) < 2 ^ 31 ->
  csr_invariants (storage_of (csr_of_lines lines)) /\
  num_nodes (storage_of (csr_of_lines lines)) = numNodes (csr_of_lines lines).
Proof.
  intros Hsize. destruct (csr_of_lines_storage lines Hsize) as [-> ->].
  split; [by apply built_invariants|apply num_nodes_csr_of_rows].
Qed.

(** C2. For every list of input records (fewer than 2^31 of them, so that
    the 32-bit array entries hold the offsets), the built graph has a
    [rowPtr] of [numNodes + 1] entries that never decrease and end with the
    length of [edgeList], and every neighbor sub-list is strictly increasing,
    free of duplicates and free of the node itself. *)
Theorem builder_establishes_invariants lines :
  Z.of_nat (length lines) < 2 ^ 31 ->
  let c := csr_of_lines lines in
  0 <= numNodes c /\
  Z.of_nat (length (rowPtr c)) = numNodes c + 1 /\
  (forall (i : nat) lo hi,
     rowPtr c !! i = Some lo -> rowPtr c !! S i = Some hi -> lo <= hi) /\
  rowPtr c !! Z.to_nat (numNodes c) = Some (Z.of_nat (length (edgeList c))) /\
  (forall i, 0 <= i < numNodes c ->
     strictly_increasing (neighbors (storage_of c) i) /\
     NoDup (neighbors (storage_of c) i) /\
     i ∉ neighbors (storage_of c) i).
Proof.
  intros Hsize c. destruct (built_graph lines Hsize) as [Hinv Hn]. fold c in Hinv, Hn.
  pose proof (inv_layout _ Hinv) as Hlayout.
  pose proof (layout_rows _ Hlayout) as Hpos.
  pose proof (layout_last _ Hlayout) as Hlast.
  rewrite Hn in Hlast. unfold num_nodes, arrayLength in Hn, Hlast.
  change (row_ptr (storage_of c)) with (rowPtr c) in *.
  change (edge_list (storage_of c)) with (edgeList c) in *.
  split_and!.
  - lia.
  - lia.
  - apply (layout_monotone _ Hlayout).
  - done.
  - intros i Hi.
    assert (Hi' : 0 <= i < num_nodes (storage_of c))
      by (unfold num_nodes, arrayLength;
          change (row_ptr (storage_of c)) with (rowPtr c); lia).
    split_and!.
    + by apply (inv_sorted _ Hinv).
    + by apply strictly_increasing_NoDup, (inv_sorted _ Hinv).
    + by apply (inv_no_self_loop _ Hinv).
Qed.

Lemma builder_establishes_invariants_witness :
  let c := csr_of_lines (text_of <$> ["10 -3"; "7 10"; "5 5"; "7 -3"; "10 7"]%string) in
  rowPtr c !! Z.to_nat (numNodes c) = Some (Z.of_nat (length (edgeList c))) /\
  strictly_increasing (neighbors (storage_of c) 2).
Proof.
  intros c.
  destruct (builder_establishes_invariants
              (text_of <$> ["10 -3"; "7 10"; "5 5"; "7 -3"; "10 7"]%string))
    as (_ & _ & _ & Hlast & Hrows).
  - vm_compute. reflexivity.
  - split; [exact Hlast|]. apply (Hrows 2).
    vm_compute. clear. split; [discriminate|reflexivity].
Defined.

(** C3. In every built graph (fewer than 2^31 input records), a node [v] is in
    the neighbor sub-list of [u] exactly when [u] is in that of [v], and no
    node is in its own sub-list. *)
Theorem builder_symmetric lines :
  Z.of_nat (length lines) < 2 ^ 31 ->
  let c := csr_of_lines lines in
  forall u v, 0 <= u < numNodes c -> 0 <= v < numNodes c ->
    (v ∈ neighbors (storage_of c) u <-> u ∈ neighbors (storage_of c) v) /\
    u ∉ neighbors (storage_of c) u.
Proof.
  intros Hsize c u v Hu Hv.
  destruct (built_graph lines Hsize) as [Hinv Hn]. fold c in Hinv, Hn.
  rewrite <- Hn in Hu, Hv. split; [split|].
  - intros H. by destruct (inv_symmetric _ Hinv u v Hu H).
  - intros H. by destruct (inv_symmetric _ Hinv v u Hv H).
  - by apply (inv_no_self_loop _ Hinv).
Qed.

Lemma builder_symmetric_witness :
  let c := csr_of_lines (text_of <$> ["1 2"; "2 3"; "3 3"; "2 1"]%string) in
  (2 ∈ neighbors (storage_of c) 1 <-> 1 ∈ neighbors (storage_of c) 2) /\
  1 ∉ neighbors (storage_of c) 1.
Proof.
  intros c.
  apply (builder_symmetric (text_of <$> ["1 2"; "2 3"; "3 3"; "2 1"]%string));
    [vm_compute; reflexivity|vm_compute; clear; split; [discriminate|reflexivity]..].
Defined.

(** ** The lines of a text *)

Lemma split_lines_length text :
  (length (concat (split_lines text)) + length (split_lines text)
   = S (length text))%nat.
Proof.
  induction text as [|c text IH]; simpl; [done|].
  destruct (Ascii.eqb c newline); simpl; [lia|].
  destruct (split_lines text) as [|line rest]; simpl in *; lia.
Qed.

Lemma trim_nil : trim [] = [].
Proof. done. Qed.

Lemma keep_line_nonempty line : keep_line line = true -> (0 < length line)%nat.
Proof.
  destruct line as [|c line]; simpl; [|lia].
  unfold keep_line. rewrite trim_nil. by rewrite bool_decide_eq_true_2.
Qed.

Lemma length_filter_nonempty {A} (P : list A -> Prop) `{!forall r, Decision (P r)}
    (rows : list (list A)) :
  (forall r, P r -> 0 < length r)%nat ->
  (length (filter P rows) <= length (concat rows))%nat.
Proof.
  intros Hpos. induction rows as [|r rows IH]; simpl; [done|].
  rewrite filter_cons, length_app. destruct (decide (P r)) as [Hr|]; simpl; [|lia].
  specialize (Hpos r Hr). lia.
Qed.

(** A text holds at most as many kept lines as code units. *)
Lemma length_kept_lines text :
  (length (filter (fun line => keep_line line = true) (split_lines text))
   <= length text)%nat.
Proof.
  pose proof (split_lines_length text).
  pose proof (length_filter_nonempty (fun line => keep_line line = true)
                (split_lines text) keep_line_nonempty).
  assert (0 < length (split_lines text))%nat; [|lia].
  destruct text as [|c text]; simpl; [lia|].
  destruct (Ascii.eqb c newline); simpl; [lia|].
  destruct (split_lines text); simpl; lia.
Qed.

(** The graph that [parseGraphToCSR] builds from a text of fewer than 2^31
    code units satisfies the invariants. *)
Lemma parseGraphToCSR_invariants text :
  Z.of_nat (length text) < 2 ^ 31 ->
  csr_invariants (storage_of (parseGraphToCSR text)) /\
  num_nodes (storage_of (parseGraphToCSR text)) = numNodes (parseGraphToCSR text).
Proof.
  intros Hsize. apply built_graph. pose proof (length_kept_lines text). lia.
Qed.

(** ** The built graph only depends on the ids and the edges mentioned *)

Lemma strictly_sorted_ext (l1 l2 : list Z) :
  StronglySorted Z.lt l1 -> StronglySorted Z.lt l2 ->
  (forall x, x ∈ l1 <-> x ∈ l2) -> l1 = l2.
Proof.
  intros H1 H2 Hiff. apply (StronglySorted_unique_strong Z.lt); try done.
  - intros; lia.
  - apply NoDup_Permutation; [|  |done];
      by apply strictly_increasing_NoDup, StronglySorted_Sorted.
Qed.

Lemma csr_of_lines_ext lines1 lines2 :
  (forall x, mentions (records lines1) x <-> mentions (records lines2) x) ->
  (forall x y, links (records lines1) x y <-> links (records lines2) x y) ->
  csr_of_lines lines1 = csr_of_lines lines2.
Proof.
  intros Hm Hl.
  assert (Hids : node_ids lines1 = node_ids lines2).
  { apply strictly_sorted_ext; [apply node_ids_strong..|].
    intros x. by rewrite !elem_of_node_ids. }
  assert (Hnb : forall x, ext_neighbors lines1 x = ext_neighbors lines2 x).
  { intros x. apply strictly_sorted_ext; [apply ext_neighbors_strong..|].
    intros y. by rewrite !elem_of_ext_neighbors. }
  rewrite !csr_of_lines_rows. rewrite Hids.
  assert (Hrows :
    row_data (adj (build_state lines1)) (make_nodeMap (node_ids lines2)) <$> node_ids lines2
    = row_data (adj (build_state lines2)) (make_nodeMap (node_ids lines2)) <$> node_ids lines2).
  { apply list_fmap_ext. intros _ x _. unfold row_data.
    fold (ext_neighbors lines1 x). fold (ext_neighbors lines2 x). by rewrite Hnb. }
  by rewrite Hrows.
Qed.

Lemma csr_of_lines_records lines1 lines2 :
  records lines1 = records lines2 -> csr_of_lines lines1 = csr_of_lines lines2.
Proof. intros Heq. apply csr_of_lines_ext; by rewrite Heq. Qed.

Lemma records_app lines1 lines2 :
  records (lines1 ++ lines2) = records lines1 ++ records lines2.
Proof. unfold records. apply omap_app. Qed.

Lemma records_cons line lines :
  records (line :: lines)
  = match record_of line with
    | Some r => r :: records lines
    | None => records lines
    end.
Proof. done. Qed.

(** C6. For every list of input records and every permutation of it, the
    built graph is the same, and so is the final triangle count. *)
Theorem permuted_input_same_graph lines1 lines2 :
  lines1 ≡ₚ lines2 ->
  csr_of_lines lines1 = csr_of_lines lines2 /\
  runTriangleCounting (csr_of_lines lines1) = runTriangleCounting (csr_of_lines lines2).
Proof.
  intros Hperm.
  assert (Heq : csr_of_lines lines1 = csr_of_lines lines2).
  { assert (Hrecs : records lines1 ≡ₚ records lines2)
      by (unfold records; by rewrite Hperm).
    apply csr_of_lines_ext.
    - intros x. unfold mentions. by setoid_rewrite Hrecs.
    - intros x y. unfold links. by setoid_rewrite Hrecs. }
  by rewrite Heq.
Qed.

Lemma permuted_input_same_graph_witness :
  csr_of_lines (text_of <$> ["0 1"; "1 2"; "0 2"]%string)
  = csr_of_lines (text_of <$> ["1 2"; "0 1"; "0 2"]%string).
Proof.
  apply (permuted_input_same_graph
           (text_of <$> ["0 1"; "1 2"; "0 2"]%string)
           (text_of <$> ["1 2"; "0 1"; "0 2"]%string)).
  simpl. apply perm_swap.
Defined.

(** ** Records that are skipped, and records that are read *)

Lemma digit_value_range c d :
  digit_value c = Some d -> (48 <= nat_of_ascii c <= 57)%nat /\ 0 <= d <= 9.
Proof.
  unfold digit_value.
  destruct (Nat.leb_spec 48 (nat_of_ascii c)), (Nat.leb_spec (nat_of_ascii c) 57);
    simpl; intros [= <-]; lia.
Qed.

Lemma digit_not_space c d : digit_value c = Some d -> is_space c = false.
Proof.
  intros [Hc _]%digit_value_range. unfold is_space.
  destruct (Nat.leb_spec 9 (nat_of_ascii c)), (Nat.leb_spec (nat_of_ascii c) 13),
    (Nat.eqb_spec (nat_of_ascii c) 32), (Nat.eqb_spec (nat_of_ascii c) 160);
    simpl; done || lia.
Qed.

Lemma digit_not_sign c d :
  digit_value c = Some d -> Ascii.eqb c "-" = false /\ Ascii.eqb c "+" = false.
Proof.
  intros [Hc _]%digit_value_range.
  split; apply Ascii.eqb_neq; intros ->; vm_compute in Hc; lia.
Qed.

Lemma leading_digits_app s rest :
  Forall (fun c => is_Some (digit_value c)) s ->
  (forall c, head rest = Some c -> digit_value c = None) ->
  leading_digits (s ++ rest) = leading_digits s.
Proof.
  intros Hs Hrest. induction Hs as [|c s [d Hd] _ IH]; simpl.
  - destruct rest as [|c rest]; [done|]. simpl. by rewrite (Hrest c).
  - by rewrite Hd, IH.
Qed.

(** What follows the leading digits of a field is not read. *)
Lemma parseInt_digits s rest :
  s <> [] -> Forall (fun c => is_Some (digit_value c)) s ->
  (forall c, head rest = Some c -> digit_value c = None) ->
  parseInt (Some (s ++ rest))
  = Some (round_to_double (decimal_value (leading_digits s))).
Proof.
  intros Hne Hs Hrest. destruct Hs as [|c s [d Hd] Hs]; [done|].
  unfold parseInt. cbn [app trimStart].
  rewrite (digit_not_space c d Hd).
  destruct (digit_not_sign c d Hd) as [-> ->].
  change (c :: s ++ rest) with ((c :: s) ++ rest).
  rewrite leading_digits_app by (done || (constructor; eauto)).
  cbn [leading_digits]. by rewrite Hd.
Qed.

(** [parseInt] gives [NaN] exactly for a field that does not start with an
    integer. *)
Lemma parseInt_NaN field :
  parseInt field = None <-> starts_with_integer field = false.
Proof.
  destruct field as [s|]; [|done]. unfold parseInt, starts_with_integer.
  destruct (trimStart s) as [|c s']; [done|].
  destruct (Ascii.eqb c "-"), (Ascii.eqb c "+"); cbn [orb];
    try (destruct s' as [|d s']; [done|]); cbn [leading_digits];
    match goal with
    | |- context [digit_value ?x] => destruct (digit_value x) as [k|] eqn:Hk
    end;
    case_bool_decide as H; try (by split); try (by destruct H);
    exfalso; apply H; eauto.
Qed.

Lemma malformed_record line :
  (parse_record line).1 = None \/ (parse_record line).2 = None ->
  record_of line = None.
Proof.
  unfold record_of. destruct (parse_record line) as [[u|] [v|]]; simpl; intros [?|?]; done.
Qed.

(** C8 (amended). A record is skipped when one of its first two fields does
    not start with an integer, which is when [parseInt] gives [NaN]: the
    built graph is the one of the remaining records.  A record whose first
    two fields start with digits is read as the pair of those leading
    integers, whatever follows the digits in the field and whatever fields
    come after.  The graph built from any records (fewer than 2^31) satisfies
    the invariants; and the empty input yields the graph without nodes,
    [rowPtr = [0]] and [edgeList = []]. *)
Theorem malformed_records_skipped :
  (forall field, parseInt field = None <-> starts_with_integer field = false) /\
  (forall lines1 bad lines2,
     starts_with_integer (split_spaces (trim bad) !! 0%nat) = false \/
     starts_with_integer (split_spaces (trim bad) !! 1%nat) = false ->
     process_line (build_state lines1) bad = build_state lines1 /\
     csr_of_lines (lines1 ++ bad :: lines2) = csr_of_lines (lines1 ++ lines2)) /\
  (forall st line d1 rest1 d2 rest2 more,
     split_spaces (trim line) = (d1 ++ rest1) :: (d2 ++ rest2) :: more ->
     d1 <> [] -> Forall (fun c => is_Some (digit_value c)) d1 ->
     (forall c, head rest1 = Some c -> digit_value c = None) ->
     d2 <> [] -> Forall (fun c => is_Some (digit_value c)) d2 ->
     (forall c, head rest2 = Some c -> digit_value c = None) ->
     process_line st line
     = add_record st (round_to_double (decimal_value (leading_digits d1)))
                     (round_to_double (decimal_value (leading_digits d2)))) /\
  (forall lines, Z.of_nat (length lines) < 2 ^ 31 ->
     csr_invariants (storage_of (csr_of_lines lines))) /\
  parseGraphToCSR [] = {| numNodes := 0; rowPtr := [0]; edgeList := [] |}.
Proof.
  split_and!.
  - apply parseInt_NaN.
  - intros lines1 bad lines2 Hbad.
    assert (Hnone : record_of bad = None).
    { apply malformed_record. unfold parse_record. cbn [fst snd].
      by rewrite !parseInt_NaN. }
    split.
    + unfold process_line, record_of in *.
      by destruct (parse_record bad) as [[u|] [v|]].
    + apply csr_of_lines_records. by rewrite !records_app, records_cons, Hnone.
  - intros st line d1 rest1 d2 rest2 more Hfields Hne1 Hd1 Hrest1 Hne2 Hd2 Hrest2.
    unfold process_line, parse_record. rewrite Hfields. cbn [lookup list_lookup].
    by rewrite !parseInt_digits by done.
  - intros lines Hsize. by apply built_graph.
  - vm_compute. reflexivity.
Qed.

Lemma malformed_records_skipped_witness :
  csr_of_lines ([text_of "0 1"] ++ text_of "x 2" :: [text_of "1 2"])
  = csr_of_lines ([text_of "0 1"] ++ [text_of "1 2"]) /\
  process_line (build_state []) (text_of "1.5 2.7 3")
  = add_record (build_state [])
      (round_to_double (decimal_value (leading_digits (text_of "1"))))
      (round_to_double (decimal_value (leading_digits (text_of "2")))) /\
  csr_invariants
    (storage_of (csr_of_lines (text_of <$> ["0 1"; "x 2"; "1 2"]%string))).
Proof.
  destruct malformed_records_skipped as (_ & Hskip & Hread & Hinv & _). split_and!.
  - apply (Hskip [text_of "0 1"] (text_of "x 2") [text_of "1 2"]).
    left. vm_compute. reflexivity.
  - apply (Hread (build_state []) (text_of "1.5 2.7 3")
             (text_of "1") (text_of ".5") (text_of "2") (text_of ".7") [text_of "3"]).
    + vm_compute. reflexivity.
    + discriminate.
    + apply (bool_decide_unpack _). vm_compute. exact I.
    + intros c [= <-]. reflexivity.
    + discriminate.
    + apply (bool_decide_unpack _). vm_compute. exact I.
    + intros c [= <-]. reflexivity.
  - apply Hinv. vm_compute. reflexivity.
Defined.

(** C8 as stated fails: records with fields that are not integers are read,
    not skipped, when the fields start with digits; the line [1.5 2.7] is the
    edge between 1 and 2 and closes a triangle. *)
Lemma non_integer_fields_are_read :
  record_of (text_of "1.5 2.7") = Some (1, 2) /\
  record_of (text_of "7abc 8.") = Some (7, 8) /\
  record_of (text_of "3 4 5 6") = Some (3, 4) /\
  csr_of_lines (text_of <$> ["1 3"; "2 3"; "1.5 2.7"]%string)
  <> csr_of_lines (text_of <$> ["1 3"; "2 3"]%string) /\
  count_triangles (unlines ["1 3"; "2 3"]%string) = Ok 0 /\
  count_triangles (unlines ["1 3"; "2 3"; "1.5 2.7"]%string) = Ok 1.
Proof. vm_compute. split_and!; reflexivity || discriminate. Qed.

(** ** The count in terms of the external ids

    A strictly monotone relabeling changes neither the merge-join nor the
    scan. *)

Lemma merge_count_fmap (f : Z -> Z) (l1 : list Z) : forall l2 : list Z,
  (forall x y, x ∈ l1 -> y ∈ l2 -> (f x < f y <-> x < y) /\ (f y < f x <-> y < x)) ->
  merge_count (f <$> l1) (f <$> l2) = merge_count l1 l2.
Proof.
  induction l1 as [|x l1 IH1]; intros l2 Hf.
  { by rewrite fmap_nil, !merge_count_nil_l. }
  induction l2 as [|y l2 IH2].
  { by rewrite fmap_nil, !merge_count_nil_r. }
  rewrite !fmap_cons, !merge_count_cons.
  destruct (Hf x y) as [Hxy Hyx]; [by left..|].
  rewrite <- !fmap_cons.
  rewrite IH2 by (intros a b Ha Hb; apply Hf; [done|by right]).
  rewrite (IH1 (y :: l2)) by (intros a b Ha Hb; apply Hf; [by right|done]).
  rewrite (IH1 l2) by (intros a b Ha Hb; apply Hf; by right).
  destruct (Z.eqb_spec (f x) (f y)), (Z.eqb_spec x y),
    (Z.ltb_spec (f x) (f y)), (Z.ltb_spec x y); try done; lia.
Qed.

Lemma scan_count_fmap (f : Z -> Z) (D : Z -> Prop) nb nb' u (l : list Z) :
  (forall x y, D x -> D y -> f x < f y <-> x < y) ->
  D u -> (forall v, v ∈ l -> D v) ->
  (forall v w, v ∈ l -> w ∈ nb v -> D w) ->
  (forall v, v ∈ l -> nb' (f v) = f <$> nb v) ->
  scan_count nb' (f u) (f <$> l) = scan_count nb u l.
Proof.
  intros Hf Hu. induction l as [|v post IH]; intros Hl Hnb Hnb'; [done|].
  rewrite fmap_cons. simpl.
  rewrite IH.
  2:{ intros w Hw. apply Hl. by right. }
  2:{ intros w z Hw. apply Hnb. by right. }
  2:{ intros w Hw. apply Hnb'. by right. }
  f_equal.
  assert (Hv : D v) by (apply Hl; by left).
  pose proof (Hf v u Hv Hu). pose proof (Hf u v Hu Hv).
  destruct (Z.leb_spec (f v) (f u)), (Z.leb_spec v u); try done; try lia.
  rewrite Hnb' by left. apply merge_count_fmap.
  intros a b Ha Hb. split; apply Hf; try (apply Hl; by right);
    apply (Hnb v); done || by left.
Qed.

Lemma seqZ_rank lines :
  seqZ 0 (Z.of_nat (length (node_ids lines)))
  = rank (node_ids lines) <$> node_ids lines.
Proof.
  apply list_eq. intros i.
  rewrite list_lookup_fmap.
  destruct (node_ids lines !! i) as [x|] eqn:Hx; simpl.
  - rewrite (rank_lookup _ _ _ (NoDup_node_ids lines) Hx).
    apply lookup_lt_Some in Hx. by rewrite lookup_seqZ_lt by lia.
  - apply lookup_ge_None in Hx. apply lookup_seqZ_ge. lia.
Qed.

(** The count of a built graph, as a sum over the external ids. *)
Lemma run_built lines :
  Z.of_nat (length lines) < 2 ^ 31 ->
  runTriangleCounting (csr_of_lines lines)
  = Ok (u32 (sumZ (fun x => scan_count (ext_neighbors lines) x (ext_neighbors lines x))
                  (node_ids lines))).
Proof.
  intros Hsize.
  pose proof (built_invariants lines Hsize) as Hinv.
  pose proof (inv_layout _ Hinv) as Hlayout.
  destruct (csr_of_lines_storage lines Hsize) as [Hg Hn].
  unfold runTriangleCounting. rewrite Hg, Hn.
  set (g := csr_of_rows (internal_rows lines)) in *.
  assert (Hnum : num_nodes g = Z.of_nat (length (node_ids lines))).
  { unfold g. rewrite num_nodes_csr_of_rows. unfold internal_rows.
    by rewrite length_fmap. }
  assert (Hlen : length (internal_rows lines) = length (node_ids lines))
    by (unfold internal_rows; by rewrite length_fmap).
  rewrite Hlen, <- Hnum.
  unfold dispatchWorkgroups. rewrite Z.mul_comm.
  rewrite run_tasks_grid;
    [|apply (layout_rows _ Hlayout)|apply (layout_row_ptr_len _ Hlayout)|].
  2:{ rewrite Z.mul_comm. apply ceil_div_grid; [|done].
      unfold num_nodes, arrayLength. pose proof (layout_rows _ Hlayout). lia. }
  rewrite run_tasks_spec; [|done|done| |].
  2:{ intros u v Hu Hv. by destruct (inv_neighbors_lt g u v Hinv Hu Hv). }
  2:{ apply Forall_forall. intros u Hu%elem_of_seqZ. lia. }
  rewrite Z.add_0_l. do 2 f_equal.
  rewrite Hnum, seqZ_rank, sumZ_fmap. apply sumZ_ext. intros x Hx.
  pose proof (rank_bounds _ _ Hx) as Hr.
  destruct (internal_neighbors lines _ Hr) as (x' & Hx' & Hr' & Hnb).
  apply list_elem_of_lookup_2 in Hx'.
  apply rank_inj in Hr'; [|apply node_ids_strong|done..]. subst x'.
  fold g in Hnb. rewrite Hnb.
  apply (scan_count_fmap _ (fun y => y ∈ node_ids lines)).
  - intros a b Ha Hb. by apply rank_lt_iff; [apply node_ids_strong|..].
  - done.
  - intros v Hv. by apply ext_neighbors_node_ids in Hv as [_ ?].
  - intros v w _ Hw. by apply ext_neighbors_node_ids in Hw as [_ ?].
  - intros v Hv. apply ext_neighbors_node_ids in Hv as [_ Hv].
    pose proof (rank_bounds _ _ Hv) as Hrv.
    destruct (internal_neighbors lines _ Hrv) as (v' & Hv' & Hrv' & Hnbv).
    apply list_elem_of_lookup_2 in Hv'.
    apply rank_inj in Hrv'; [|apply node_ids_strong|done..]. by subst v'.
Qed.

(** ** Self-loops and repeated records *)

Lemma mentions_insert recs1 recs2 u v x :
  mentions (recs1 ++ (u, v) :: recs2) x
  <-> mentions (recs1 ++ recs2) x \/ x = u \/ x = v.
Proof.
  unfold mentions. split.
  - intros (u' & v' & Hin & Hx).
    apply elem_of_app in Hin as [Hin|[Heq|Hin]%elem_of_cons].
    + left. exists u', v'. split; [apply elem_of_app; by left|done].
    + simplify_eq. tauto.
    + left. exists u', v'. split; [apply elem_of_app; by right|done].
  - intros [(u' & v' & Hin & Hx)|Hx].
    + exists u', v'. split; [|done].
      apply elem_of_app in Hin as [?|?]; apply elem_of_app; [by left|right; by right].
    + exists u, v. split; [|done]. apply elem_of_app. right. by left.
Qed.

Lemma links_insert recs1 recs2 u v x y :
  links (recs1 ++ (u, v) :: recs2) x y
  <-> links (recs1 ++ recs2) x y \/ (u ≠ v /\ (x = u /\ y = v \/ x = v /\ y = u)).
Proof.
  unfold links. split.
  - intros (u' & v' & Hin & Hx).
    apply elem_of_app in Hin as [Hin|[Heq|Hin]%elem_of_cons].
    + left. exists u', v'. split; [apply elem_of_app; by left|done].
    + simplify_eq. tauto.
    + left. exists u', v'. split; [apply elem_of_app; by right|done].
  - intros [(u' & v' & Hin & Hx)|Hx].
    + exists u', v'. split; [|done].
      apply elem_of_app in Hin as [?|?]; apply elem_of_app; [by left|right; by right].
    + exists u, v. split; [|done]. apply elem_of_app. right. by left.
Qed.

Lemma records_insert lines1 line lines2 u v :
  record_of line = Some (u, v) ->
  records (lines1 ++ line :: lines2) = records lines1 ++ (u, v) :: records lines2.
Proof. intros H. by rewrite records_app, records_cons, H. Qed.






(** C5. The test graphs: one triangle, the complete graph on four nodes, two
    disjoint triangles and the path 0-1-2-3. *)
Theorem test_graph_counts :
  count_triangles (unlines ["0 1"; "1 2"; "0 2"]%string) = Ok 1 /\
  count_triangles (unlines ["0 1"; "0 2"; "0 3"; "1 2"; "1 3"; "2 3"]%string) = Ok 4 /\
  count_triangles (unlines ["0 1"; "1 2"; "0 2"; "3 4"; "4 5"; "3 5"]%string) = Ok 2 /\
  count_triangles (unlines ["0 1"; "1 2"; "2 3"]%string) = Ok 0.
Proof. vm_compute. repeat split. Qed.

(** ** The complete graph *)

Lemma StronglySorted_seqZ m n : StronglySorted Z.lt (seqZ m n).
Proof.
  remember (Z.to_nat n) as k eqn:Hk. revert m n Hk.
  induction k as [|k IH]; intros m n Hk.
  - rewrite seqZ_nil by lia. constructor.
  - rewrite seqZ_cons by lia. constructor; [apply IH; lia|].
    apply Forall_forall. intros x Hx%elem_of_seqZ. lia.
Qed.

Lemma StronglySorted_filter (P : Z -> Prop) `{!forall x, Decision (P x)} (l : list Z) :
  StronglySorted Z.lt l -> StronglySorted Z.lt (filter P l).
Proof.
  induction 1 as [|x l Hl IH Hx]; [constructor|].
  rewrite filter_cons. destruct (decide (P x)); [|done].
  constructor; [done|]. rewrite Forall_forall in Hx |- *.
  intros y [_ Hy]%list_elem_of_filter. by apply Hx.
Qed.

Lemma length_concat_le {A} (rows : list (list A)) (m : nat) :
  Forall (fun row => length row <= m)%nat rows ->
  (length (concat rows) <= length rows * m)%nat.
Proof.
  induction 1 as [|row rows Hrow _ IH]; simpl; [done|].
  rewrite length_app. lia.
Qed.

Lemma complete_graph_neighbors n i :
  0 <= i < n ->
  neighbors (complete_graph n) i = filter (fun j => j ≠ i) (seqZ 0 n).
Proof.
  intros Hi. unfold complete_graph.
  rewrite <- (Z2Nat.id i) at 1 by lia. apply neighbors_csr_of_rows.
  rewrite list_lookup_fmap, lookup_seqZ_lt by lia. simpl.
  by rewrite Z2Nat.id by lia.
Qed.

Lemma complete_graph_num_nodes n : 0 <= n -> num_nodes (complete_graph n) = n.
Proof.
  intros Hn. unfold complete_graph.
  rewrite num_nodes_csr_of_rows, length_fmap, length_seqZ. lia.
Qed.

Lemma complete_graph_invariants n :
  0 <= n -> n * n < u32_modulus -> csr_invariants (complete_graph n).
Proof.
  intros Hn Hsize. rewrite u32_modulus_eq in Hsize.
  pose proof (complete_graph_num_nodes n Hn) as Hnum.
  split.
  - unfold complete_graph. apply csr_of_rows_layout.
    + rewrite length_fmap, length_seqZ, u32_modulus_eq. nia.
    + pose proof (length_concat_le
        ((fun i => filter (fun j => j ≠ i) (seqZ 0 n)) <$> seqZ 0 n) (Z.to_nat n)) as Hle.
      rewrite length_fmap, length_seqZ in Hle.
      rewrite u32_modulus_eq. apply Z.le_lt_trans with (Z.of_nat (Z.to_nat n * Z.to_nat n)); [|lia].
      apply Nat2Z.inj_le, Hle.
      apply Forall_fmap, Forall_forall. intros i _. simpl.
      etrans; [apply length_filter|]. by rewrite length_seqZ.
    + apply Forall_forall.
      intros x (row & (i & -> & _)%list_elem_of_fmap & Hx)%elem_of_concat.
      apply list_elem_of_filter in Hx as [_ Hx%elem_of_seqZ].
      unfold is_u32. rewrite u32_modulus_eq. nia.
  - intros i Hi. rewrite Hnum in Hi. rewrite complete_graph_neighbors by done.
    apply StronglySorted_Sorted, StronglySorted_filter, StronglySorted_seqZ.
  - intros i Hi. rewrite Hnum in Hi. rewrite complete_graph_neighbors by done.
    by intros [? _]%list_elem_of_filter.
  - intros u v Hu. rewrite Hnum in Hu |- *. rewrite complete_graph_neighbors by done.
    intros [Hne Hv%elem_of_seqZ]%list_elem_of_filter.
    split; [lia|]. rewrite complete_graph_neighbors by lia.
    apply list_elem_of_filter. split; [done|]. apply elem_of_seqZ. lia.
Qed.

Lemma length_bind_sumZ {A B} (k : A -> list B) (l : list A) :
  Z.of_nat (length (l ≫= k)) = sumZ (fun x => Z.of_nat (length (k x))) l.
Proof.
  induction l as [|x l IH]; [done|].
  rewrite bind_cons, length_app. simpl. lia.
Qed.

Lemma length_triples n : Z.of_nat (length (triples n)) = count_triples n.
Proof.
  unfold triples, count_triples. rewrite length_bind_sumZ.
  apply sumZ_ext. intros a _. rewrite length_bind_sumZ.
  apply sumZ_ext. intros b _. rewrite length_bind_sumZ.
  rewrite (sumZ_ext _ (fun _ => 1)) by done.
  generalize (seqZ (b + 1) (n - (b + 1))) (length_seqZ (b + 1) (n - (b + 1))).
  intros l Hl. transitivity (Z.of_nat (length l)); [|lia].
  clear. induction l as [|c l IH]; simpl; lia.
Qed.

Lemma complete_graph_triangles n :
  0 <= n -> triangles (complete_graph n) = count_triples n.
Proof.
  intros Hn. unfold triangles. rewrite complete_graph_num_nodes by done.
  rewrite filter_Forall_id; [apply length_triples|].
  apply Forall_forall. intros [[a b] c]. unfold triples.
  intros (a' & (b' & (c' & Ht%list_elem_of_singleton & Hc%elem_of_seqZ)%list_elem_of_bind
                & Hb%elem_of_seqZ)%list_elem_of_bind & Ha%elem_of_seqZ)%list_elem_of_bind.
  simplify_eq. unfold is_triangle, has_edge.
  rewrite !complete_graph_neighbors by lia.
  rewrite !andb_true_iff, !bool_decide_eq_true, !list_elem_of_filter, !elem_of_seqZ.
  lia.
Qed.

(** The number of triples below [n] is the binomial coefficient. *)
Lemma sumZ_above n m (k : nat) :
  m + Z.of_nat k <= n ->
  2 * sumZ (fun b => Z.max 0 (n - (b + 1))) (seqZ m (Z.of_nat k))
  = Z.of_nat k * (2 * n - 2 * m - Z.of_nat k - 1).
Proof.
  induction k as [|k IH]; intros Hk; [done|].
  rewrite seqZ_S, sumZ_app. simpl. specialize (IH ltac:(lia)). nia.
Qed.

Lemma sumZ_singleton {A} (f : A -> Z) x : sumZ f [x] = f x.
Proof. unfold sumZ. simpl. lia. Qed.

Lemma sumZ_pairs_above n (j : nat) :
  Z.of_nat j <= n ->
  6 * sumZ (fun a => sumZ (fun b => Z.max 0 (n - (b + 1))) (seqZ (a + 1) (n - (a + 1))))
           (seqZ 0 (Z.of_nat j))
  = n * (n - 1) * (n - 2)
    - (n - Z.of_nat j) * (n - Z.of_nat j - 1) * (n - Z.of_nat j - 2).
Proof.
  induction j as [|j IH]; intros Hj; [simpl; lia|].
  rewrite seqZ_S, sumZ_app. specialize (IH ltac:(lia)).
  pose proof (sumZ_above n (Z.of_nat j + 1) (Z.to_nat (n - (Z.of_nat j + 1)))) as Hin.
  rewrite Z2Nat.id in Hin by lia. specialize (Hin ltac:(lia)).
  rewrite Z.add_0_l, sumZ_singleton.
  rewrite Z.mul_add_distr_l, IH.
  replace (6 * sumZ (fun b => Z.max 0 (n - (b + 1)))
                    (seqZ (Z.of_nat j + 1) (n - (Z.of_nat j + 1))))
    with (3 * (2 * sumZ (fun b => Z.max 0 (n - (b + 1)))
                        (seqZ (Z.of_nat j + 1) (n - (Z.of_nat j + 1))))) by ring.
  rewrite Hin. rewrite Nat2Z.inj_succ. ring.
Qed.

Lemma count_triples_closed n :
  0 <= n -> 6 * count_triples n = n * (n - 1) * (n - 2).
Proof.
  intros Hn. unfold count_triples.
  pose proof (sumZ_pairs_above n (Z.to_nat n)) as H.
  rewrite Z2Nat.id in H by lia. specialize (H ltac:(lia)). lia.
Qed.

(** ** Termination

    On buffers of [u32] values the loops of the kernel never use up the fuel
    they are given: an outcome is either a result or an out-of-bounds read. *)

Lemma load_u32 buf i x : Forall is_u32 buf -> load buf i = Ok x -> is_u32 x.
Proof.
  unfold load. intros Hbuf. destruct (buf !! Z.to_nat i) as [y|] eqn:Hy; [|done].
  intros [= <-]. rewrite Forall_lookup in Hbuf. by apply (Hbuf _ _ Hy).
Qed.

Lemma load_OutOfFuel buf i : load buf i <> OutOfFuel.
Proof. unfold load. by destruct (buf !! Z.to_nat i). Qed.

(** Case analysis on a read: only the value read is left to consider. *)
Ltac case_load x H :=
  match goal with
  | |- context [load ?buf ?i] =>
      destruct (load buf i) as [x| |] eqn:H; simpl;
      [|done|by apply load_OutOfFuel in H]
  end.

Lemma is_neighbor_loop_terminates g searchValue fuel : forall start end_,
  0 <= start -> end_ < u32_modulus ->
  (start < end_ -> end_ - start <= Z.of_nat fuel) ->
  is_neighbor_loop fuel g searchValue start end_ <> OutOfFuel.
Proof.
  rewrite u32_modulus_eq.
  induction fuel as [|fuel IH]; intros start end_ Hs He Hfuel; simpl.
  - destruct (Z.ltb_spec start end_); [lia|done].
  - destruct (Z.ltb_spec start end_) as [Hlt|Hge]; [|done].
    rewrite (u32_small (end_ - start)) by (unfold is_u32; rewrite u32_modulus_eq; lia).
    set (mid := start + (end_ - start) / 2).
    assert (Hmid : start <= mid < end_).
    { unfold mid. pose proof (Z.div_pos (end_ - start) 2).
      pose proof (Z.div_lt_upper_bound (end_ - start) 2 (end_ - start)). lia. }
    rewrite (u32_small mid) by (unfold is_u32; rewrite u32_modulus_eq; lia).
    rewrite (u32_small (mid + 1)) by (unfold is_u32; rewrite u32_modulus_eq; lia).
    case_load val Hval.
    destruct (val =? searchValue); [done|].
    destruct (val <? searchValue); apply IH; lia.
Qed.

Lemma is_neighbor_terminates g node searchValue :
  Forall is_u32 (row_ptr g) -> is_neighbor g node searchValue <> OutOfFuel.
Proof.
  intros Hrp. unfold is_neighbor.
  case_load start Hstart. case_load end_ Hend.
  apply (load_u32 _ _ _ Hrp) in Hstart, Hend. unfold is_u32 in *.
  apply is_neighbor_loop_terminates; lia.
Qed.

Lemma merge_loop_terminates g fuel : forall end_u end_v ptr_u ptr_v c,
  0 <= ptr_u -> 0 <= ptr_v -> end_u < u32_modulus -> end_v < u32_modulus ->
  (ptr_u < end_u -> ptr_v < end_v ->
   (end_u - ptr_u) + (end_v - ptr_v) <= Z.of_nat fuel) ->
  merge_loop fuel g end_u end_v ptr_u ptr_v c <> OutOfFuel.
Proof.
  rewrite u32_modulus_eq.
  induction fuel as [|fuel IH]; intros end_u end_v ptr_u ptr_v c Hpu Hpv Heu Hev Hfuel;
    simpl.
  - destruct (Z.ltb_spec ptr_u end_u), (Z.ltb_spec ptr_v end_v); simpl; done || lia.
  - destruct (Z.ltb_spec ptr_u end_u), (Z.ltb_spec ptr_v end_v); simpl; try done.
    rewrite (u32_small (ptr_u + 1)), (u32_small (ptr_v + 1))
      by (unfold is_u32; rewrite u32_modulus_eq; lia).
    case_load wu Hwu. case_load wv Hwv.
    destruct (wu =? wv); [|destruct (wu <? wv)]; apply IH; lia.
Qed.

Lemma neighbor_loop_terminates g u end_u fuel : forall i c,
  Forall is_u32 (row_ptr g) -> 0 <= i -> end_u < u32_modulus ->
  (i < end_u -> end_u - i <= Z.of_nat fuel) ->
  neighbor_loop fuel g u end_u i c <> OutOfFuel.
Proof.
  induction fuel as [|fuel IH]; intros i c Hrp Hi Heu Hfuel; simpl.
  - destruct (Z.ltb_spec i end_u); [lia|done].
  - destruct (Z.ltb_spec i end_u) as [Hlt|Hge]; [|done].
    pose proof Heu as Heu'. rewrite u32_modulus_eq in Heu'.
    rewrite (u32_small (i + 1)) by (unfold is_u32; rewrite u32_modulus_eq; lia).
    case_load v Hv.
    destruct (v <=? u); [apply IH; done || lia|].
    case_load start_v Hsv. case_load end_v Hev.
    apply (load_u32 _ _ _ Hrp) in Hsv, Hev. unfold is_u32 in Hsv, Hev.
    destruct (merge_loop _ g end_u end_v (i + 1) start_v c) as [c'| |] eqn:Hmerge;
      simpl; [apply IH; done || lia|done|].
    exfalso. revert Hmerge. apply merge_loop_terminates; lia.
Qed.

Lemma main_terminates g u c :
  Forall is_u32 (row_ptr g) -> main g u c <> OutOfFuel.
Proof.
  intros Hrp. unfold main.
  destruct (u32 (arrayLength (row_ptr g) - 1) <=? u); [done|].
  case_load start_u Hs. case_load end_u He.
  apply (load_u32 _ _ _ Hrp) in Hs, He. unfold is_u32 in *.
  apply neighbor_loop_terminates; done || lia.
Qed.

Lemma run_tasks_terminates g ids c :
  Forall is_u32 (row_ptr g) -> run_tasks g ids c <> OutOfFuel.
Proof.
  intros Hrp. revert c. induction ids as [|u ids IH]; intros c; simpl; [done|].
  destruct (main g u c) as [c'| |] eqn:Hmain; simpl; [apply IH|done|].
  by apply main_terminates in Hmain.
Qed.

(** The tasks may run in any order. *)
Lemma run_tasks_Permutation g ids1 ids2 c :
  csr_layout g -> is_u32 c ->
  (forall u v, 0 <= u < num_nodes g -> v ∈ neighbors g u -> v < num_nodes g) ->
  Forall (fun u => 0 <= u < num_nodes g) ids1 ->
  ids1 ≡ₚ ids2 ->
  run_tasks g ids1 c = run_tasks g ids2 c.
Proof.
  intros Hg Hc Hrange Hids Hperm.
  rewrite !run_tasks_spec; try done.
  - by rewrite (sumZ_Permutation _ _ _ Hperm).
  - by rewrite <- Hperm.
Qed.

(** ** Reading records *)

Example parse_record_examples :
  parse_record (text_of "10 -3") = (Some 10, Some (-3)) /\
  parse_record (text_of "  7	10  extra") = (Some 7, Some 10) /\
  parse_record (text_of "1.5 2") = (Some 1, Some 2) /\
  parse_record (text_of "12abc +3") = (Some 12, Some 3) /\
  parse_record (text_of "5") = (Some 5, None) /\
  parse_record (text_of "a 1") = (None, Some 1) /\
  parse_record (text_of "- 1") = (None, Some 1) /\
  parse_record (text_of " # 1 2") = (None, Some 1).
Proof. vm_compute. repeat split. Qed.

(** Integers up to 2^53 in absolute value are doubles. *)
Lemma round_to_double_safe z : - 2 ^ 53 <= z <= 2 ^ 53 -> round_to_double z = z.
Proof.
  intros Hz.
  assert (Hmag : forall n, 0 <= n <= 2 ^ 53 -> round_magnitude n = n).
  { intros n Hn. destruct (decide (n = 2 ^ 53)) as [->|Hne]; [reflexivity|].
    unfold round_magnitude.
    destruct (Z.ltb_spec (Z.log2 n) 53) as [|Hlog]; [done|].
    destruct (decide (n = 0)) as [->|Hpos]; [done|].
    assert (Z.log2 n < 53); [|lia].
    apply Z.log2_lt_pow2; lia. }
  unfold round_to_double. destruct (Z.ltb_spec z 0).
  - rewrite Hmag by lia. lia.
  - apply Hmag. lia.
Qed.

(** Ids above 2^53 are rounded to doubles: different digit strings can be
    one id. *)
Example parseInt_rounds :
  parseInt (Some (text_of "9007199254740993")) = Some 9007199254740992 /\
  parseInt (Some (text_of "-9007199254740995")) = Some (- 9007199254740996) /\
  parseInt (Some (text_of "9007199254740991")) = Some 9007199254740991 /\
  parseInt (Some (text_of "123456789012345678901234567890"))
  = Some 123456789012345677877719597056 /\
  parseGraphToCSR (text_of "9007199254740993 9007199254740992")
  = {| numNodes := 1; rowPtr := [0; 0]; edgeList := [] |} /\
  count_triangles
    (unlines ["9007199254740993 1"; "9007199254740992 2"; "1 2"]%string) = Ok 1.
Proof. vm_compute. repeat split. Qed.

Example parseGraphToCSR_example :
  parseGraphToCSR
    (unlines ["# ids"; "10 -3 x"; "bad"; ""; "  7 10"; "5 5"; "7 -3"]%string)
  = {| numNodes := 4; rowPtr := [0; 2; 2; 4; 6]; edgeList := [2; 3; 0; 3; 0; 2] |}.
Proof. vm_compute. reflexivity. Qed.

Example complete_graph_4 :
  complete_graph 4
  = {| row_ptr := [0; 3; 6; 9; 12];
       edge_list := [1; 2; 3; 0; 2; 3; 0; 1; 3; 0; 1; 2] |}.
Proof. vm_compute. reflexivity. Qed.

(** ** The final count *)

Lemma storage_of_csr_of_storage g : storage_of (csr_of_storage g) = g.
Proof. by destruct g. Qed.

Lemma kernel_run g :
  csr_invariants g ->
  dispatchWorkgroups workgroupSize (ceil_div (num_nodes g) workgroupSize) g 0
  = Ok (u32 (triangles g)).
Proof.
  intros Hg. pose proof (inv_layout g Hg) as Hlayout.
  pose proof (layout_rows g Hlayout) as Hpos.
  unfold dispatchWorkgroups. rewrite Z.mul_comm.
  rewrite run_tasks_grid; [|done|apply (layout_row_ptr_len g Hlayout)|].
  - rewrite run_tasks_triangles; [done|done|]. unfold is_u32. by rewrite u32_modulus_eq.
  - rewrite Z.mul_comm. apply ceil_div_grid; [|done].
    unfold num_nodes, arrayLength. lia.
Qed.

Lemma system_run g :
  csr_invariants g ->
  runTriangleCounting (csr_of_storage g) = Ok (u32 (triangles g)).
Proof.
  intros Hg. unfold runTriangleCounting. rewrite storage_of_csr_of_storage.
  by apply kernel_run.
Qed.

Lemma triangles_nonneg g : 0 <= triangles g.
Proof. unfold triangles. lia. Qed.

(** The complete graph on 2955 vertices has more triangles than a 32-bit
    counter holds. *)
Lemma complete_graph_2955 :
  csr_invariants (complete_graph 2955) /\
  triangles (complete_graph 2955) = 4296157285 /\
  u32 (triangles (complete_graph 2955)) = 1189989.
Proof.
  assert (Ht : triangles (complete_graph 2955) = 4296157285).
  { pose proof (count_triples_closed 2955 ltac:(lia)) as H.
    rewrite <- complete_graph_triangles in H by lia. lia. }
  split_and!.
  - apply complete_graph_invariants; [lia|by rewrite u32_modulus_eq].
  - done.
  - by rewrite Ht.
Qed.

(** C1 (amended). For every graph that satisfies the invariants: the
    merge-join that the task of vertex [a] runs at a neighbor [b] above [a],
    from just past the position of [b] in the row of [a], adds to the counter
    the number of triangles [{a, b, c}] with [c] above [b]; the task of [a]
    adds the number of triangles whose smallest vertex is [a], so that every
    triangle is counted once; and the final value of the 32-bit counter is
    the number of triangles modulo 2^32: the exact number whenever that is
    below 2^32. *)
Theorem kernel_counts_triangles g :
  csr_invariants g ->
  (forall a b i lo hi start_v end_v c,
     0 <= a < num_nodes g ->
     row_ptr g !! Z.to_nat a = Some lo -> row_ptr g !! Z.to_nat (a + 1) = Some hi ->
     lo <= i < hi -> edge_list g !! Z.to_nat i = Some b -> a < b ->
     row_ptr g !! Z.to_nat b = Some start_v ->
     row_ptr g !! Z.to_nat (b + 1) = Some end_v ->
     is_u32 c ->
     merge_loop (Z.to_nat ((hi - (i + 1)) + (end_v - start_v)))
       g hi end_v (i + 1) start_v c
     = Ok (u32 (c + triangles_on g a b))) /\
  (forall a c, 0 <= a < num_nodes g -> is_u32 c ->
     main g a c = Ok (u32 (c + triangles_at g a))) /\
  (forall a, triangles_at g a
             = sumZ (triangles_on g a) (seqZ (a + 1) (num_nodes g - (a + 1)))) /\
  triangles g = sumZ (triangles_at g) (seqZ 0 (num_nodes g)) /\
  dispatchWorkgroups workgroupSize (ceil_div (num_nodes g) workgroupSize) g 0
  = Ok (triangles g mod 2 ^ 32) /\
  (triangles g < 2 ^ 32 ->
   dispatchWorkgroups workgroupSize (ceil_div (num_nodes g) workgroupSize) g 0
   = Ok (triangles g)).
Proof.
  intros Hg. split_and!.
  - intros a b i lo hi start_v end_v c. by apply merge_join_counts.
  - intros a c Ha Hc. rewrite triangles_at_scan by done.
    apply main_spec; [apply Hg|done|done|].
    intros v Hv _. by destruct (inv_neighbors_lt g a v Hg Ha Hv).
  - apply triangles_at_on.
  - apply triangles_sum.
  - by apply kernel_run.
  - intros Hlt. rewrite kernel_run by done. f_equal. apply u32_small.
    split; [apply triangles_nonneg|done].
Qed.

Lemma kernel_counts_triangles_witness :
  dispatchWorkgroups workgroupSize
    (ceil_div (num_nodes (complete_graph 4)) workgroupSize) (complete_graph 4) 0
  = Ok (triangles (complete_graph 4) mod 2 ^ 32).
Proof.
  destruct (kernel_counts_triangles (complete_graph 4)) as (_ & _ & _ & _ & Hrun & _).
  - apply complete_graph_invariants; [lia|reflexivity].
  - exact Hrun.
Defined.

(** C1 as stated fails: on the complete graph on 2955 vertices, which
    satisfies the invariants, the final value of the counter is not the number
    of triangles. *)
Lemma exact_count_fails :
  csr_invariants (complete_graph 2955) /\
  dispatchWorkgroups workgroupSize
    (ceil_div (num_nodes (complete_graph 2955)) workgroupSize) (complete_graph 2955) 0
  <> Ok (triangles (complete_graph 2955)).
Proof.
  destruct complete_graph_2955 as (Hinv & Ht & Hwrap). split; [done|].
  rewrite kernel_run by done. rewrite Hwrap, Ht. discriminate.
Qed.

(** ** The count that is shown, within the limits of the device *)

Lemma no_edges_no_triangles g : edge_list g = [] -> triangles g = 0.
Proof.
  intros Hnil. unfold triangles.
  assert (Hnb : forall i, neighbors g i = []).
  { intros i. unfold neighbors, slice. rewrite Hnil.
    destruct (row_ptr g !! Z.to_nat i), (row_ptr g !! Z.to_nat (i + 1)); try done.
    by rewrite drop_nil, take_nil. }
  assert (Hnone : forall l, filter (fun t => is_triangle g t = true) l = []).
  { induction l as [|[[a b] c] l IH]; [done|].
    rewrite filter_cons_False; [done|].
    unfold is_triangle, has_edge. rewrite !Hnb.
    by rewrite bool_decide_eq_false_2 by apply not_elem_of_nil. }
  by rewrite Hnone.
Qed.

Lemma finalCount_run g :
  csr_invariants g -> within_default_limits (csr_of_storage g) = true ->
  finalCount (csr_of_storage g) = Ok (u32 (triangles g)).
Proof.
  intros Hg Hlimits. unfold finalCount, commands_valid. rewrite Hlimits.
  pose proof (layout_rows g (inv_layout g Hg)) as Hrows.
  unfold byteLength. cbn [csr_of_storage rowPtr edgeList andb].
  destruct (Z.ltb_spec 0 (4 * Z.of_nat (length (row_ptr g)))); [|lia].
  destruct (Z.ltb_spec 0 (4 * Z.of_nat (length (edge_list g)))) as [|Hnil]; cbn [andb].
  - by apply system_run.
  - rewrite no_edges_no_triangles; [done|].
    destruct (edge_list g); [done|]. simpl in Hnil. lia.
Qed.

Lemma complete_graph_within_limits n :
  0 <= n -> 4 * (n + 1) <= maxStorageBufferBindingSize ->
  4 * (n * n) <= maxStorageBufferBindingSize ->
  ceil_div n workgroupSize <= maxComputeWorkgroupsPerDimension ->
  within_default_limits (csr_of_storage (complete_graph n)) = true.
Proof.
  intros Hn Hrows Hedges Hgrid.
  pose proof (complete_graph_num_nodes n Hn) as Hnum.
  unfold within_default_limits, byteLength. cbn [csr_of_storage rowPtr edgeList numNodes].
  rewrite Hnum. unfold num_nodes, arrayLength in Hnum.
  rewrite !andb_true_iff, !Z.leb_le. split_and!; [lia| |done].
  pose proof (length_concat_le
    ((fun i => filter (fun j => j ≠ i) (seqZ 0 n)) <$> seqZ 0 n) (Z.to_nat n)) as Hle.
  rewrite length_fmap, length_seqZ in Hle.
  assert (Hlen : (length (edge_list (complete_graph n)) <= Z.to_nat n * Z.to_nat n)%nat).
  { apply Hle, Forall_fmap, Forall_forall. intros i _. simpl.
    etrans; [apply length_filter|]. by rewrite length_seqZ. }
  nia.
Qed.

(** C9 (amended). The counter is 32 bits wide and wraps: on a graph with at
    least 2^32 triangles whose buffers and grid are within the default
    limits of the device, the run ends normally and the count read back is
    the number of triangles modulo 2^32, which is below the true number. *)
Theorem counter_wraps_modulo g :
  csr_invariants g -> within_default_limits (csr_of_storage g) = true ->
  2 ^ 32 <= triangles g ->
  exists count,
    finalCount (csr_of_storage g) = Ok count /\
    count = triangles g mod 2 ^ 32 /\
    0 <= count < 2 ^ 32 /\
    count < triangles g.
Proof.
  intros Hg Hlimits Hbig. exists (u32 (triangles g)).
  pose proof (u32_is_u32 (triangles g)) as Hu. unfold is_u32 in Hu.
  rewrite u32_modulus_eq in Hu.
  split_and!; [by apply finalCount_run|done|lia|lia|lia].
Qed.

Lemma counter_wraps_modulo_witness :
  exists count,
    finalCount (csr_of_storage (complete_graph 2955)) = Ok count /\
    count = triangles (complete_graph 2955) mod 2 ^ 32 /\
    0 <= count < 2 ^ 32 /\
    count < triangles (complete_graph 2955).
Proof.
  apply (counter_wraps_modulo (complete_graph 2955)).
  - apply complete_graph_2955.
  - apply complete_graph_within_limits; vm_compute; discriminate.
  - destruct complete_graph_2955 as (_ & Ht & _). rewrite Ht.
    vm_compute. discriminate.
Defined.

(** C9 as stated fails: the complete graph on 2955 vertices is within the
    limits of the device and has 4296157285 triangles, more than the counter
    holds, and the run ends normally with the count 1189989. *)
Lemma overflow_wraps_silently :
  csr_invariants (complete_graph 2955) /\
  within_default_limits (csr_of_storage (complete_graph 2955)) = true /\
  triangles (complete_graph 2955) = 4296157285 /\
  2 ^ 32 - 1 < triangles (complete_graph 2955) /\
  finalCount (csr_of_storage (complete_graph 2955)) = Ok 1189989.
Proof.
  destruct complete_graph_2955 as (Hinv & Ht & Hwrap).
  assert (Hlimits : within_default_limits (csr_of_storage (complete_graph 2955)) = true)
    by (apply complete_graph_within_limits; vm_compute; discriminate).
  split_and!; [done|done|done| |].
  - rewrite Ht. reflexivity.
  - rewrite finalCount_run by done. by rewrite Hwrap.
Qed.

(** * Further properties of the code *)

(** Concrete lists of [u32] values and of node ids. *)
Ltac solve_Forall_range :=
  repeat (apply Forall_cons_2;
          [unfold is_u32; rewrite ?u32_modulus_eq; vm_compute; clear;
           split; [discriminate|reflexivity]|]);
  apply Forall_nil_2.

(** X2. On a graph that satisfies the invariants, the tasks of the nodes may
    run in any order: every schedule that runs each task once leaves the
    counter at the number of triangles modulo 2^32. *)
Theorem any_task_order_same_count g ids :
  csr_invariants g -> ids ≡ₚ seqZ 0 (num_nodes g) ->
  run_tasks g ids 0 = Ok (u32 (triangles g)).
Proof.
  intros Hg Hperm.
  assert (Hc : is_u32 0) by (unfold is_u32; by rewrite u32_modulus_eq).
  pose proof (run_tasks_triangles g 0 Hg Hc) as Hrun. rewrite Z.add_0_l in Hrun.
  rewrite <- Hrun. apply run_tasks_Permutation.
  - apply Hg.
  - done.
  - intros u v Hu Hv. by destruct (inv_neighbors_lt g u v Hg Hu Hv).
  - rewrite Hperm. apply Forall_forall. intros u Hu%elem_of_seqZ. lia.
  - done.
Qed.

Lemma any_task_order_same_count_witness :
  run_tasks (complete_graph 4) [2; 0; 3; 1] 0 = Ok (u32 (triangles (complete_graph 4))).
Proof.
  apply (any_task_order_same_count (complete_graph 4) [2; 0; 3; 1]).
  - apply complete_graph_invariants; [lia|reflexivity].
  - rewrite complete_graph_num_nodes by lia.
    change (seqZ 0 4) with [0; 1; 2; 3].
    apply (bool_decide_unpack _). vm_compute. exact I.
Defined.

(** X12. [Math.ceil(numNodes / workgroupSize)] workgroups cover every node,
    and one workgroup fewer would not: fewer than [workgroupSize] tasks of the
    grid are idle. *)
Theorem grid_is_tight n wg :
  0 < n -> 0 < wg ->
  (ceil_div n wg - 1) * wg < n <= ceil_div n wg * wg.
Proof.
  intros Hn Hwg. split; [|apply ceil_div_grid; lia].
  unfold ceil_div.
  pose proof (Z.div_mod (n + wg - 1) wg ltac:(lia)).
  pose proof (Z.mod_pos_bound (n + wg - 1) wg Hwg). nia.
Qed.

Lemma grid_is_tight_witness :
  (ceil_div 2955 256 - 1) * 256 < 2955 <= ceil_div 2955 256 * 256.
Proof. apply (grid_is_tight 2955 256); reflexivity. Defined.

(** ** Memory safety of the kernel *)

(** X18. The kernel reads inside its buffers whenever the offsets are laid
    out and every entry of the edge list is below the number of nodes: the
    rows need be neither sorted nor symmetric, and the thread ids may be
    any, in any order, below or above the number of nodes.  The counter
    stays a 32-bit value. *)
Theorem kernel_stays_in_bounds g ids c :
  csr_layout g ->
  (forall u v, 0 <= u < num_nodes g -> v ∈ neighbors g u -> v < num_nodes g) ->
  Forall (fun u => 0 <= u) ids -> is_u32 c ->
  exists c', run_tasks g ids c = Ok c' /\ is_u32 c'.
Proof.
  intros Hg Hrange Hids. revert c.
  induction Hids as [|u ids Hu Hids IH]; intros c Hc; simpl; [by exists c|].
  destruct (decide (u < num_nodes g)) as [Hlt|Hge].
  - rewrite main_spec by (done || lia || eauto). simpl.
    apply IH, u32_is_u32.
  - rewrite main_out_of_range;
      [|apply (layout_rows g Hg)|apply (layout_row_ptr_len g Hg)|lia].
    simpl. by apply IH.
Qed.

Lemma kernel_stays_in_bounds_witness :
  exists c', run_tasks {| row_ptr := [0; 2; 3; 4]; edge_list := [2; 1; 0; 1] |}
               [7; 0; 2; 1; 0] 5 = Ok c' /\ is_u32 c'.
Proof.
  apply (kernel_stays_in_bounds
           {| row_ptr := [0; 2; 3; 4]; edge_list := [2; 1; 0; 1] |}
           [7; 0; 2; 1; 0] 5).
  - split.
    + simpl. lia.
    + by rewrite u32_modulus_eq.
    + by rewrite u32_modulus_eq.
    + solve_Forall_range.
    + solve_Forall_range.
    + intros [|[|[|[|i]]]] lo hi; simpl; intros [= <-] [= <-]; lia.
    + reflexivity.
  - intros u v Hu. change (num_nodes _) with 3 in *.
    assert (Hcases : u = 0 \/ u = 1 \/ u = 2) by lia.
    destruct Hcases as [->|[->| ->]]; vm_compute;
      intros Hv; repeat (apply elem_of_cons in Hv as [->|Hv]; [done|]);
      by apply elem_of_nil in Hv.
  - repeat (apply Forall_cons_2; [lia|]). apply Forall_nil_2.
  - unfold is_u32. by rewrite u32_modulus_eq.
Defined.

(** ** The binary search as a membership test for the merge-join *)

Lemma is_neighbor_row g node searchValue :
  csr_layout g -> 0 <= node < num_nodes g ->
  strictly_increasing (neighbors g node) ->
  is_neighbor g node searchValue
  = Ok (bool_decide (searchValue ∈ neighbors g node)).
Proof.
  intros Hg Hnode Hsorted.
  destruct (layout_row g node Hg Hnode) as (lo & hi & Hlo & Hhi & Hle & Hhi_le & Hnb).
  pose proof (layout_row_ptr_len g Hg) as Hlen. unfold num_nodes in Hnode.
  unfold is_neighbor.
  rewrite (load_lookup _ _ _ Hlo). simpl.
  rewrite (u32_small (node + 1)) by (unfold is_u32; lia).
  rewrite (load_lookup _ _ _ Hhi). simpl.
  rewrite Hnb in *.
  apply is_neighbor_loop_spec; [lia|done|apply (layout_edge_list_len g Hg)|lia|].
  by apply strictly_increasing_strong.
Qed.

(** X11. The merge-join and the binary search agree: on a graph that
    satisfies the invariants, the merge-join that the task of [a] runs at its
    neighbor [b] adds to the counter the number of later entries [w] of the
    row of [a] for which [is_neighbor(b, w)] returns true. *)
Theorem merge_join_agrees_with_is_neighbor g a b i lo hi start_v end_v c :
  csr_invariants g -> 0 <= a < num_nodes g ->
  row_ptr g !! Z.to_nat a = Some lo -> row_ptr g !! Z.to_nat (a + 1) = Some hi ->
  lo <= i < hi -> edge_list g !! Z.to_nat i = Some b -> a < b ->
  row_ptr g !! Z.to_nat b = Some start_v ->
  row_ptr g !! Z.to_nat (b + 1) = Some end_v ->
  is_u32 c ->
  merge_loop (Z.to_nat ((hi - (i + 1)) + (end_v - start_v)))
    g hi end_v (i + 1) start_v c
  = Ok (u32 (c + Z.of_nat (length
      (filter (fun w => is_neighbor g b w = Ok true)
              (slice (edge_list g) (i + 1) hi))))).
Proof.
  intros Hg Ha Hlo Hhi Hi Hb Hab Hsv Hev Hc.
  pose proof (inv_layout g Hg) as Hlayout.
  destruct (layout_row g a Hlayout Ha) as (lo' & hi' & Hlo' & Hhi' & Hle & Hhi_le & Hnb).
  simplify_eq.
  assert (Hrow : neighbors g a
                 = slice (edge_list g) lo i ++ b :: slice (edge_list g) (i + 1) hi).
  { rewrite Hnb, (slice_split _ lo i hi) by lia.
    by rewrite (slice_cons _ i hi b) by (lia || done). }
  assert (Hbin : b ∈ neighbors g a) by (rewrite Hrow; apply elem_of_app; right; by left).
  pose proof (inv_neighbors_lt g a b Hg Ha Hbin) as Hbn.
  destruct (layout_row g b Hlayout Hbn) as (sv & ev & Hsv' & Hev' & Hle_v & Hev_le & Hnb_v).
  simplify_eq.
  pose proof (strictly_increasing_strong _ (inv_sorted g Hg a Ha)) as Hsorted.
  rewrite merge_loop_spec;
    [|lia|lia|lia|lia|apply (layout_edge_list_len g Hlayout)|done|lia].
  do 3 f_equal. rewrite <- Hnb_v.
  rewrite merge_count_sorted.
  - do 2 f_equal. apply filter_ext_in. intros w _.
    rewrite is_neighbor_row by (done || by apply (inv_sorted g Hg)).
    split.
    + intros Hw. by rewrite bool_decide_eq_true_2.
    + intros [= Hw]. by apply bool_decide_eq_true_1 in Hw.
  - rewrite Hrow in Hsorted.
    by apply StronglySorted_app in Hsorted as (_ & _ & [_ ?]%StronglySorted_cons).
  - by apply strictly_increasing_strong, (inv_sorted g Hg).
Qed.

Lemma merge_join_agrees_with_is_neighbor_witness :
  merge_loop (Z.to_nat ((3 - (0 + 1)) + (6 - 3)))
    (complete_graph 4) 3 6 (0 + 1) 3 0
  = Ok (u32 (0 + Z.of_nat (length
      (filter (fun w => is_neighbor (complete_graph 4) 1 w = Ok true)
              (slice (edge_list (complete_graph 4)) (0 + 1) 3))))).
Proof.
  apply (merge_join_agrees_with_is_neighbor (complete_graph 4) 0 1 0 0 3 3 6 0).
  - apply complete_graph_invariants; [lia|reflexivity].
  - rewrite complete_graph_num_nodes; lia.
  - reflexivity.
  - reflexivity.
  - lia.
  - reflexivity.
  - lia.
  - reflexivity.
  - reflexivity.
  - unfold is_u32. by rewrite u32_modulus_eq.
Defined.

(** ** [updateStatus] *)

Lemma elem_of_classList_remove tokens cl t :
  t ∈ classList_remove tokens cl <-> t ∈ cl /\ t ∉ tokens.
Proof. unfold classList_remove. rewrite list_elem_of_filter. tauto. Qed.

Lemma elem_of_classList_add tokens cl t :
  t ∈ classList_add tokens cl <-> t ∈ cl \/ t ∈ tokens.
Proof.
  unfold classList_add. revert cl.
  induction tokens as [|t' tokens IH]; intros cl; simpl.
  - rewrite elem_of_nil. tauto.
  - rewrite IH, elem_of_cons. destruct (decide (t' ∈ cl)) as [Hin|Hin].
    + split; [tauto|]. intros [?|[->|?]]; tauto.
    + rewrite elem_of_app, list_elem_of_singleton. tauto.
Qed.

Lemma NoDup_classList_add tokens cl : NoDup cl -> NoDup (classList_add tokens cl).
Proof.
  unfold classList_add. revert cl.
  induction tokens as [|t tokens IH]; intros cl Hcl; simpl; [done|].
  apply IH. destruct (decide (t ∈ cl)); [done|].
  apply NoDup_app. split_and!; [done| |apply NoDup_singleton].
  by intros x Hx ->%list_elem_of_singleton.
Qed.

Lemma classList_add_app tokens cl :
  exists added, classList_add tokens cl = cl ++ added /\
                forall t, t ∈ added -> t ∈ tokens.
Proof.
  unfold classList_add. revert cl.
  induction tokens as [|t tokens IH]; intros cl; simpl.
  - exists []. by rewrite app_nil_r.
  - destruct (decide (t ∈ cl)).
    + destruct (IH cl) as (added & -> & Hadded). exists added. split; [done|].
      intros x Hx. right. by apply Hadded.
    + destruct (IH (cl ++ [t])) as (added & -> & Hadded). exists (t :: added).
      split; [by rewrite <- app_assoc|].
      intros x [->|Hx]%elem_of_cons; [by left|right; by apply Hadded].
Qed.

Lemma classList_remove_idemp tokens cl :
  classList_remove tokens (classList_remove tokens cl) = classList_remove tokens cl.
Proof.
  unfold classList_remove. apply filter_Forall_id, Forall_forall.
  by intros t [? _]%list_elem_of_filter.
Qed.

(** Classes added from [tokens'] are removed again with [tokens']. *)
Lemma classList_remove_add tokens tokens' cl :
  (forall t, t ∈ tokens -> t ∈ tokens') ->
  classList_remove tokens' (classList_add tokens (classList_remove tokens' cl))
  = classList_remove tokens' cl.
Proof.
  intros Hsub.
  destruct (classList_add_app tokens (classList_remove tokens' cl))
    as (added & -> & Hadded).
  unfold classList_remove at 1. rewrite filter_app.
  fold (classList_remove tokens' (classList_remove tokens' cl)).
  rewrite classList_remove_idemp.
  rewrite (filter_ext_in _ (fun _ => False) added).
  - assert (Hnil : filter (fun _ : string => False) added = []).
    { clear. induction added as [|t added IH]; [done|].
      rewrite filter_cons_False by tauto. exact IH. }
    by rewrite Hnil, app_nil_r.
  - intros t Ht. split; [|done]. intros Hnot. apply Hnot, Hsub, Hadded, Ht.
Qed.

Lemma status_tokens_subseteq (type : string) t :
  t ∈ (if decide (type = "success"%string) then ["text-green-400"%string]
       else if decide (type = "error"%string) then ["text-red-400"%string]
       else if decide (type = "running"%string)
            then ["text-yellow-400"; "animate-pulse"]%string
       else ["text-yellow-400"%string]) ->
  t ∈ status_classes.
Proof.
  unfold status_classes. repeat case_decide; rewrite !elem_of_cons, !elem_of_nil; tauto.
Qed.

Lemma updateStatus_classList statusEl message type :
  classList (updateStatus statusEl message type)
  = classList_add
      (let type := default "running"%string type in
       if decide (type = "success"%string) then ["text-green-400"%string]
       else if decide (type = "error"%string) then ["text-red-400"%string]
       else if decide (type = "running"%string)
            then ["text-yellow-400"; "animate-pulse"]%string
       else ["text-yellow-400"%string])
      (classList_remove status_classes (classList statusEl)).
Proof.
  unfold updateStatus. cbn [classList]. cbv zeta.
  repeat case_decide; reflexivity.
Qed.

(** X13. A call of [updateStatus] replaces the status as a whole: after two
    calls the element is what the second call alone makes of it. *)
Theorem updateStatus_last_wins statusEl message1 type1 message2 type2 :
  updateStatus (updateStatus statusEl message1 type1) message2 type2
  = updateStatus statusEl message2 type2.
Proof.
  assert (Hcl : classList_remove status_classes
                  (classList (updateStatus statusEl message1 type1))
                = classList_remove status_classes (classList statusEl)).
  { rewrite updateStatus_classList. apply classList_remove_add.
    apply status_tokens_subseteq. }
  unfold updateStatus at 1 3. by rewrite Hcl.
Qed.

(** X14. After [updateStatus] the element carries exactly one of the three
    colour classes, the one of the type given; it pulses exactly when the
    type is ['running'] (or left out); and every other class is kept. *)
Theorem updateStatus_classes statusEl message type :
  let el := updateStatus statusEl message type in
  let type := default "running"%string type in
  textContent el = message /\
  ("text-green-400"%string ∈ classList el <-> type = "success"%string) /\
  ("text-red-400"%string ∈ classList el <-> type = "error"%string) /\
  ("text-yellow-400"%string ∈ classList el
   <-> type ≠ "success"%string /\ type ≠ "error"%string) /\
  ("animate-pulse"%string ∈ classList el <-> type = "running"%string) /\
  (forall t, t ∉ status_classes -> t ∈ classList el <-> t ∈ classList statusEl) /\
  (NoDup (classList statusEl) -> NoDup (classList el)).
Proof.
  intros el type'. unfold el. split; [done|].
  rewrite updateStatus_classList. cbv zeta. fold type'.
  split_and!.
  - rewrite elem_of_classList_add, elem_of_classList_remove. unfold status_classes.
    repeat case_decide; rewrite !elem_of_cons, !elem_of_nil;
      intuition (discriminate || congruence).
  - rewrite elem_of_classList_add, elem_of_classList_remove. unfold status_classes.
    repeat case_decide; rewrite !elem_of_cons, !elem_of_nil;
      intuition (discriminate || congruence).
  - rewrite elem_of_classList_add, elem_of_classList_remove. unfold status_classes.
    repeat case_decide; rewrite !elem_of_cons, !elem_of_nil;
      intuition (discriminate || congruence).
  - rewrite elem_of_classList_add, elem_of_classList_remove. unfold status_classes.
    repeat case_decide; rewrite !elem_of_cons, !elem_of_nil;
      intuition (discriminate || congruence).
  - intros t Ht. rewrite elem_of_classList_add, elem_of_classList_remove.
    split; [|tauto]. intros [[? _]|Hin]; [done|].
    exfalso. by apply Ht, (status_tokens_subseteq type').
  - intros Hnd. apply NoDup_classList_add. unfold classList_remove.
    by apply NoDup_filter.
Qed.

(** ** Lines of a text *)

Lemma split_lines_nonempty text : split_lines text <> [].
Proof.
  destruct text as [|c text]; simpl; [done|].
  destruct (Ascii.eqb c newline); [done|]. by destruct (split_lines text).
Qed.

Lemma split_lines_head text :
  exists line rest, split_lines text = line :: rest.
Proof.
  pose proof (split_lines_nonempty text).
  destruct (split_lines text) as [|line rest]; [done|]. eauto.
Qed.

Lemma join_lines_cons line line' rest :
  join_lines (line :: line' :: rest) = line ++ newline :: join_lines (line' :: rest).
Proof. done. Qed.

Lemma split_lines_no_newline text :
  Forall (fun line => newline ∉ line) (split_lines text).
Proof.
  induction text as [|c text IH]; simpl.
  - repeat constructor. by intros ?%elem_of_nil.
  - destruct (Ascii.eqb_spec c newline) as [->|Hc].
    + constructor; [by intros ?%elem_of_nil|done].
    + destruct (split_lines text) as [|line rest]; simpl.
      * repeat constructor. intros ?%list_elem_of_singleton. congruence.
      * apply Forall_cons in IH as [Hline Hrest]. constructor; [|done].
        intros [?|?]%elem_of_cons; [congruence|done].
Qed.

Lemma join_split_lines text : join_lines (split_lines text) = text.
Proof.
  induction text as [|c text IH]; simpl; [done|].
  destruct (split_lines_head text) as (line & rest & Heq).
  destruct (Ascii.eqb_spec c newline) as [->|Hc].
  - rewrite Heq, join_lines_cons, app_nil_l. by rewrite <- Heq, IH.
  - rewrite Heq. cbn [add_head]. rewrite <- IH, Heq.
    destruct rest as [|line' rest]; [done|].
    by rewrite !join_lines_cons.
Qed.

Lemma split_lines_line line :
  newline ∉ line -> split_lines line = [line].
Proof.
  induction line as [|c line IH]; intros Hnl; simpl; [done|].
  destruct (Ascii.eqb_spec c newline) as [->|Hc].
  - exfalso. apply Hnl. by left.
  - rewrite IH; [done|]. intros ?. apply Hnl. by right.
Qed.

Lemma split_lines_app line text :
  newline ∉ line ->
  split_lines (line ++ newline :: text) = line :: split_lines text.
Proof.
  induction line as [|c line IH]; intros Hnl; simpl.
  - done.
  - destruct (Ascii.eqb_spec c newline) as [->|Hc].
    + exfalso. apply Hnl. by left.
    + rewrite IH; [done|]. intros ?. apply Hnl. by right.
Qed.

Lemma split_join_lines lines :
  lines <> [] -> Forall (fun line => newline ∉ line) lines ->
  split_lines (join_lines lines) = lines.
Proof.
  intros Hne Hnl. induction Hnl as [|line rest Hline Hrest IH]; [done|].
  destruct rest as [|line' rest].
  - simpl. by apply split_lines_line.
  - rewrite join_lines_cons, split_lines_app by done. f_equal. by apply IH.
Qed.

(** X9. Splitting a text at the line feeds and joining the lines again are
    inverse: no line holds a line feed, the joined lines are the text, and a
    non-empty list of lines without line feeds is recovered from its join. *)
Theorem split_lines_round_trip :
  (forall text, join_lines (split_lines text) = text /\
                Forall (fun line => newline ∉ line) (split_lines text)) /\
  (forall lines, lines <> [] -> Forall (fun line => newline ∉ line) lines ->
                 split_lines (join_lines lines) = lines).
Proof.
  split.
  - intros text. split; [apply join_split_lines|apply split_lines_no_newline].
  - apply split_join_lines.
Qed.

Lemma split_lines_round_trip_witness :
  split_lines (join_lines [text_of "0 1"; text_of ""; text_of "# c"])
  = [text_of "0 1"; text_of ""; text_of "# c"].
Proof.
  destruct split_lines_round_trip as [_ H]. apply H.
  - discriminate.
  - apply (bool_decide_unpack _). vm_compute. exact I.
Defined.

(** ** White space and comments *)

Lemma trimStart_spaces ws s :
  Forall (fun c => is_space c = true) ws -> trimStart (ws ++ s) = trimStart s.
Proof. induction 1 as [|c ws Hc _ IH]; simpl; [done|]. by rewrite Hc. Qed.

Lemma trimStart_all_spaces ws :
  Forall (fun c => is_space c = true) ws -> trimStart ws = [].
Proof.
  intros H. rewrite <- (app_nil_r ws). by rewrite trimStart_spaces.
Qed.

Lemma trimStart_app s s' :
  trimStart s <> [] -> trimStart (s ++ s') = trimStart s ++ s'.
Proof.
  induction s as [|c s IH]; simpl; [done|].
  destruct (is_space c); [apply IH|done].
Qed.

Lemma trimStart_nil_spaces s :
  trimStart s = [] -> Forall (fun c => is_space c = true) s.
Proof.
  induction s as [|c s IH]; simpl; [constructor|].
  destruct (is_space c) eqn:Hc; [|done]. intros H. constructor; auto.
Qed.

Lemma trim_spaces ws1 s ws2 :
  Forall (fun c => is_space c = true) ws1 ->
  Forall (fun c => is_space c = true) ws2 ->
  trim (ws1 ++ s ++ ws2) = trim s.
Proof.
  intros H1 H2. unfold trim. rewrite trimStart_spaces by done.
  destruct (trimStart s) as [|c s'] eqn:Hs.
  - rewrite (trimStart_all_spaces (s ++ ws2)); [done|].
    apply Forall_app. split; [by apply trimStart_nil_spaces|done].
  - rewrite trimStart_app by (by rewrite Hs). rewrite Hs.
    rewrite reverse_app, (trimStart_spaces (reverse ws2)); [done|].
    by apply Forall_reverse.
Qed.

Lemma trim_all_spaces ws :
  Forall (fun c => is_space c = true) ws -> trim ws = [].
Proof. intros H. unfold trim. by rewrite (trimStart_all_spaces ws). Qed.

(** X8. White space around a record does not count: with spaces, tabs or a
    carriage return before or after it, a line is read as the same record and
    the graph built is the same. *)
Theorem surrounding_space_ignored ws1 line ws2 :
  Forall (fun c => is_space c = true) ws1 ->
  Forall (fun c => is_space c = true) ws2 ->
  parse_record (ws1 ++ line ++ ws2) = parse_record line /\
  (forall lines1 lines2,
     csr_of_lines (lines1 ++ (ws1 ++ line ++ ws2) :: lines2)
     = csr_of_lines (lines1 ++ line :: lines2)).
Proof.
  intros H1 H2.
  assert (Hparse : parse_record (ws1 ++ line ++ ws2) = parse_record line)
    by (unfold parse_record; by rewrite trim_spaces).
  split; [done|]. intros lines1 lines2. apply csr_of_lines_records.
  rewrite !records_app, !records_cons. unfold record_of. by rewrite Hparse.
Qed.

Lemma surrounding_space_ignored_witness :
  parse_record (text_of "  " ++ text_of "3 4" ++ [ascii_of_nat 13])
  = parse_record (text_of "3 4").
Proof.
  apply (surrounding_space_ignored (text_of "  ") (text_of "3 4") [ascii_of_nat 13]).
  - apply (bool_decide_unpack _). vm_compute. exact I.
  - apply (bool_decide_unpack _). vm_compute. exact I.
Defined.

(** ** The lines that are kept *)

Lemma input_lines_join lines :
  Forall (fun line => newline ∉ line) lines ->
  input_lines (join_lines lines) = filter (fun line => keep_line line = true) lines.
Proof.
  intros Hnl. unfold input_lines. destruct lines as [|line rest]; [done|].
  by rewrite split_join_lines.
Qed.

Lemma keep_line_comment line : startsWith_hash line = true -> keep_line line = false.
Proof. intros H. unfold keep_line. rewrite H. apply andb_false_r. Qed.

Lemma keep_line_blank line :
  Forall (fun c => is_space c = true) line -> keep_line line = false.
Proof.
  intros H. unfold keep_line. rewrite trim_all_spaces by done.
  by rewrite bool_decide_eq_true_2.
Qed.

(** X7. The graph of a file is the graph of its kept lines, and a comment
    line (one that starts with [#]) or a blank line (white space only) is not
    kept: adding such a line anywhere in the file leaves the graph as it is. *)
Theorem comments_and_blank_lines_ignored lines1 line lines2 :
  Forall (fun l => newline ∉ l) (lines1 ++ line :: lines2) ->
  startsWith_hash line = true \/ Forall (fun c => is_space c = true) line ->
  parseGraphToCSR (join_lines (lines1 ++ line :: lines2))
  = parseGraphToCSR (join_lines (lines1 ++ lines2)) /\
  parseGraphToCSR (join_lines (lines1 ++ lines2))
  = csr_of_lines (filter (fun l => keep_line l = true) (lines1 ++ lines2)).
Proof.
  intros Hnl Hline.
  assert (Hnl' : Forall (fun l => newline ∉ l) (lines1 ++ lines2)).
  { apply Forall_app in Hnl as [? [_ ?]%Forall_cons]. by apply Forall_app. }
  assert (Hkeep : keep_line line = false).
  { destruct Hline; [by apply keep_line_comment|by apply keep_line_blank]. }
  unfold parseGraphToCSR. fold (input_lines (join_lines (lines1 ++ line :: lines2))).
  fold (input_lines (join_lines (lines1 ++ lines2))).
  rewrite !input_lines_join by done. split; [|done].
  rewrite !filter_app, filter_cons_False; [done|]. by rewrite Hkeep.
Qed.

Lemma comments_and_blank_lines_ignored_witness :
  parseGraphToCSR (join_lines ([text_of "0 1"] ++ text_of "# 5 6" :: [text_of "1 2"]))
  = parseGraphToCSR (join_lines ([text_of "0 1"] ++ [text_of "1 2"])).
Proof.
  apply (comments_and_blank_lines_ignored [text_of "0 1"] (text_of "# 5 6") [text_of "1 2"]).
  - apply (bool_decide_unpack _). vm_compute. exact I.
  - left. reflexivity.
Defined.

(** ** The input as a graph *)

Lemma joins_links recs x y : joins recs x y = true <-> links recs x y.
Proof.
  unfold joins, links. rewrite existsb_exists. split.
  - intros ([u v] & Hin%list_elem_of_In & H). exists u, v. split; [done|].
    apply andb_true_iff in H as [Hne%negb_true_iff%Z.eqb_neq H].
    split; [done|].
    apply orb_true_iff in H as [H|H]; apply andb_true_iff in H as [?%Z.eqb_eq ?%Z.eqb_eq];
      tauto.
  - intros (u & v & Hin & Hne & H). exists (u, v). split; [by apply list_elem_of_In|].
    apply andb_true_iff. split; [by apply negb_true_iff, Z.eqb_neq|].
    apply orb_true_iff.
    destruct H as [[-> ->]|[-> ->]]; [left|right]; by rewrite !Z.eqb_refl.
Qed.

Lemma joins_sym recs x y : joins recs x y = joins recs y x.
Proof.
  apply eq_true_iff_eq. rewrite !joins_links. split; apply links_sym.
Qed.

Lemma joins_irrefl recs x : joins recs x x = false.
Proof.
  apply not_true_is_false. rewrite joins_links. apply links_irrefl.
Qed.

Lemma node_ids_input_ids lines : node_ids lines = input_ids lines.
Proof.
  apply strictly_sorted_ext.
  - apply node_ids_strong.
  - apply sort_numbers_strong, NoDup_remove_dups.
  - intros x. rewrite elem_of_node_ids. unfold input_ids.
    rewrite elem_of_sort_numbers, elem_of_remove_dups, list_elem_of_bind.
    unfold mentions. split.
    + intros (u & v & Hin & Hx). exists (u, v). split; [|done].
      destruct Hx as [-> | ->]; [by left|right; by left].
    + intros ([u v] & Hx & Hin). exists u, v. split; [done|].
      apply elem_of_cons in Hx as [->|Hx]; [by left|].
      apply list_elem_of_singleton in Hx. by right.
Qed.

Lemma joins_ext_neighbors lines x y :
  joins (records lines) x y = true <-> y ∈ ext_neighbors lines x.
Proof. by rewrite joins_links, elem_of_ext_neighbors. Qed.

(** The neighbors of [x] are the ids that [x] is joined to. *)
Lemma ext_neighbors_Permutation lines x :
  filter (fun y => joins (records lines) x y = true) (node_ids lines)
  ≡ₚ ext_neighbors lines x.
Proof.
  apply NoDup_Permutation.
  - apply NoDup_filter, NoDup_node_ids.
  - apply strictly_increasing_NoDup, StronglySorted_Sorted, ext_neighbors_strong.
  - intros y. rewrite list_elem_of_filter, joins_ext_neighbors. split; [tauto|].
    intros Hy. split; [done|]. by apply ext_neighbors_node_ids in Hy as [_ ?].
Qed.

Lemma sumZ_cons {A} (f : A -> Z) x l : sumZ f (x :: l) = f x + sumZ f l.
Proof. done. Qed.

Lemma sumZ_add {A} (f1 f2 : A -> Z) l :
  sumZ (fun y => f1 y + f2 y) l = sumZ f1 l + sumZ f2 l.
Proof. induction l as [|y l IH]; [done|]. rewrite !sumZ_cons, IH. lia. Qed.

Lemma sumZ_pairs_of {A} (h : A -> A -> Z) (l : list A) :
  sumZ (fun x => sumZ (h x) l) l
  = sumZ (fun p => h p.1 p.2 + h p.2 p.1) (pairs_of l) + sumZ (fun x => h x x) l.
Proof.
  induction l as [|x l IH]; [done|].
  cbn [pairs_of]. rewrite sumZ_app, sumZ_fmap, !sumZ_cons.
  rewrite (sumZ_ext (fun a => sumZ (h a) (x :: l)) (fun a => h a x + sumZ (h a) l))
    by done.
  rewrite sumZ_add, IH. cbn [fst snd].
  rewrite (sumZ_add (h x) (fun y => h y x)). lia.
Qed.

Lemma length_row_data m nodeMap x :
  length (row_data m nodeMap x) = length (sort_numbers (default [] (m !! x))).
Proof. unfold row_data. by rewrite length_fmap. Qed.

Lemma length_concat_sumZ {A} (rows : list (list A)) :
  Z.of_nat (length (concat rows)) = sumZ (fun row => Z.of_nat (length row)) rows.
Proof. induction rows as [|r rows IH]; simpl; [done|]. rewrite length_app. lia. Qed.

Lemma length_edgeList lines :
  Z.of_nat (length (edgeList (csr_of_lines lines)))
  = sumZ (fun x => Z.of_nat (length (ext_neighbors lines x))) (node_ids lines).
Proof.
  rewrite csr_of_lines_rows. cbn [edgeList].
  rewrite length_fmap, length_concat_sumZ, sumZ_fmap.
  apply sumZ_ext. intros x _. by rewrite length_row_data.
Qed.

(** X5. The status line of the page divides the length of [edgeList] by two:
    that length is twice the number of undirected edges of the input, each
    pair of different ids that some record joins counted once.  Ids are the
    numbers that [parseInt] returns: two fields that round to the same double
    are one id. *)
Theorem edgeList_length_twice_edges lines :
  Z.of_nat (length (edgeList (csr_of_lines lines)))
  = 2 * Z.of_nat (length (input_edges lines)).
Proof.
  rewrite length_edgeList. unfold input_edges. rewrite <- node_ids_input_ids.
  set (ids := node_ids lines). set (recs := records lines).
  set (h := fun x y : Z => if decide (joins recs x y = true) then 1 else 0).
  rewrite (sumZ_ext _ (fun x => sumZ (h x) ids)).
  2:{ intros x _. rewrite <- (ext_neighbors_Permutation lines x).
      fold ids recs. by rewrite length_filter_sumZ. }
  rewrite sumZ_pairs_of.
  rewrite (sumZ_zero (fun x => h x x))
    by (intros x _; unfold h; by rewrite joins_irrefl, decide_False).
  rewrite length_filter_sumZ, Z.add_0_r.
  assert (Hdouble : forall (f : Z * Z -> Z) k, sumZ (fun p => f p + f p) k = 2 * sumZ f k).
  { intros f k. induction k as [|p k IH]; simpl; lia. }
  rewrite <- Hdouble. apply sumZ_ext. intros [x y] _. simpl. unfold h.
  rewrite (joins_sym recs y x).
  destruct (decide (joins recs x y = true)); lia.
Qed.

(** X4. The number of nodes of the built graph is the number of distinct ids
    in the records, self-loops included, and [rowPtr] starts at 0.  Ids are
    the numbers that [parseInt] returns: two fields that round to the same
    double are one id. *)
Theorem numNodes_counts_distinct_ids lines :
  numNodes (csr_of_lines lines)
  = Z.of_nat (length (remove_dups (records lines ≫= fun '(u, v) => [u; v]))) /\
  rowPtr (csr_of_lines lines) !! 0%nat = Some 0.
Proof.
  split.
  - rewrite csr_of_lines_rows. cbn [numNodes]. rewrite node_ids_input_ids.
    unfold input_ids. by rewrite sort_numbers_Permutation.
  - rewrite csr_of_lines_rows. cbn [rowPtr].
    rewrite list_lookup_fmap, offsets_lookup by lia. done.
Qed.

(** X6. The relabeling [nodeMap] is an order isomorphism from the ids of the
    input, the numbers that [parseInt] returns, onto the internal ids: every
    id has an internal id below the number of nodes, looking that position up
    in the sorted ids gives the id back, and two ids compare as their
    internal ids do. *)
Theorem nodeMap_order_isomorphism lines x y :
  x ∈ input_ids lines -> y ∈ input_ids lines ->
  exists i j,
    make_nodeMap (input_ids lines) !! x = Some i /\
    make_nodeMap (input_ids lines) !! y = Some j /\
    0 <= i < numNodes (csr_of_lines lines) /\
    input_ids lines !! Z.to_nat i = Some x /\
    (i < j <-> x < y) /\ (i = j <-> x = y).
Proof.
  rewrite <- node_ids_input_ids. intros Hx Hy.
  pose proof (node_ids_strong lines) as Hs. pose proof (NoDup_node_ids lines) as Hnd.
  destruct (list_elem_of_lookup_1 _ _ Hx) as [i Hi].
  destruct (list_elem_of_lookup_1 _ _ Hy) as [j Hj].
  exists (Z.of_nat i), (Z.of_nat j).
  pose proof (rank_lt_iff _ x y Hs Hx Hy) as Hlt.
  pose proof (rank_lt_iff _ y x Hs Hy Hx) as Hgt.
  rewrite (rank_lookup _ i x), (rank_lookup _ j y) in Hlt, Hgt by done.
  split_and!.
  - by apply make_nodeMap_lookup.
  - by apply make_nodeMap_lookup.
  - lia.
  - rewrite csr_of_lines_rows. cbn [numNodes]. apply lookup_lt_Some in Hi. lia.
  - by rewrite Nat2Z.id.
  - done.
  - split; [lia|]. intros ->. lia.
Qed.

Lemma nodeMap_order_isomorphism_witness :
  exists i j,
    make_nodeMap (input_ids [text_of "40 7"; text_of "7 -2"]) !! 7 = Some i /\
    make_nodeMap (input_ids [text_of "40 7"; text_of "7 -2"]) !! 40 = Some j /\
    0 <= i < numNodes (csr_of_lines [text_of "40 7"; text_of "7 -2"]) /\
    input_ids [text_of "40 7"; text_of "7 -2"] !! Z.to_nat i = Some 7 /\
    (i < j <-> 7 < 40) /\ (i = j <-> 7 = 40).
Proof.
  apply (nodeMap_order_isomorphism [text_of "40 7"; text_of "7 -2"] 7 40).
  - apply (bool_decide_unpack _). vm_compute. exact I.
  - apply (bool_decide_unpack _). vm_compute. exact I.
Defined.

(** X15. The direction in which a record names an edge does not matter: a
    record [v u] in the place of a record [u v] gives the same graph. *)
Theorem record_direction_ignored lines1 line line' lines2 u v :
  record_of line = Some (u, v) -> record_of line' = Some (v, u) ->
  csr_of_lines (lines1 ++ line :: lines2) = csr_of_lines (lines1 ++ line' :: lines2).
Proof.
  intros Hline Hline'. apply csr_of_lines_ext.
  - intros x. rewrite (records_insert _ _ _ _ _ Hline), (records_insert _ _ _ _ _ Hline').
    rewrite !mentions_insert. tauto.
  - intros x y.
    rewrite (records_insert _ _ _ _ _ Hline), (records_insert _ _ _ _ _ Hline').
    rewrite !links_insert. split; (intros [?|[Hne ?]]; [by left|right]);
      (split; [congruence|tauto]).
Qed.

Lemma record_direction_ignored_witness :
  csr_of_lines ([text_of "0 1"] ++ text_of "1 2" :: [text_of "0 2"])
  = csr_of_lines ([text_of "0 1"] ++ text_of "2 1" :: [text_of "0 2"]).
Proof.
  apply (record_direction_ignored [text_of "0 1"] (text_of "1 2") (text_of "2 1")
           [text_of "0 2"] 1 2); reflexivity.
Defined.

(** ** The count of the input *)

Lemma filter_above_head (x : Z) (l : list Z) :
  Forall (Z.lt x) l -> filter (fun z => x + 1 <= z) (x :: l) = l.
Proof.
  intros Hx. rewrite filter_cons_False by lia. apply filter_Forall_id.
  eapply Forall_impl; [done|]. simpl. lia.
Qed.

Lemma filter_above_cons (x y : Z) (l : list Z) :
  x < y -> filter (fun z => y + 1 <= z) (x :: l) = filter (fun z => y + 1 <= z) l.
Proof. intros Hxy. by rewrite filter_cons_False by lia. Qed.

Lemma sumZ_pairs_sorted (h : Z -> Z -> Z) (l : list Z) :
  StronglySorted Z.lt l ->
  sumZ (fun p => h p.1 p.2) (pairs_of l)
  = sumZ (fun y => sumZ (h y) (filter (fun z => y + 1 <= z) l)) l.
Proof.
  induction 1 as [|x l Hl IH Hx]; [done|].
  cbn [pairs_of]. rewrite sumZ_app, sumZ_fmap, sumZ_cons, IH.
  rewrite filter_above_head by done. cbn [fst snd]. f_equal.
  apply sumZ_ext. intros y Hy. rewrite filter_above_cons; [done|].
  rewrite Forall_forall in Hx. by apply Hx.
Qed.

Lemma sumZ_triples_sorted (h : Z -> Z -> Z -> Z) (l : list Z) :
  StronglySorted Z.lt l ->
  sumZ (fun t => h t.1.1 t.1.2 t.2) (triples_of l)
  = sumZ (fun x => sumZ (fun y => sumZ (h x y) (filter (fun z => y + 1 <= z) l))
                        (filter (fun y => x + 1 <= y) l)) l.
Proof.
  induction 1 as [|x l Hl IH Hx]; [done|].
  pose proof Hx as Hx'. rewrite Forall_forall in Hx'.
  cbn [triples_of]. rewrite sumZ_app, sumZ_fmap, sumZ_cons, IH.
  rewrite filter_above_head by done. f_equal.
  - rewrite (sumZ_ext _ (fun p => h x p.1 p.2)) by (by intros [y z] _).
    rewrite (sumZ_pairs_sorted (h x)) by done.
    apply sumZ_ext. intros y Hy. by rewrite filter_above_cons by (by apply Hx').
  - apply sumZ_ext. intros x' Hx1.
    rewrite filter_above_cons by (by apply Hx').
    apply sumZ_ext. intros y [Hy Hyl]%list_elem_of_filter.
    rewrite filter_above_cons; [done|]. specialize (Hx' _ Hx1). lia.
Qed.

(** The scan of the neighbors of [x], over the sorted ids. *)
Lemma scan_count_input lines x :
  x ∈ node_ids lines ->
  scan_count (ext_neighbors lines) x (ext_neighbors lines x)
  = sumZ (fun y =>
      sumZ (fun z =>
              if decide (joins (records lines) x y && joins (records lines) y z
                         && joins (records lines) x z = true) then 1 else 0)
           (filter (fun z => y + 1 <= z) (node_ids lines)))
      (filter (fun y => x + 1 <= y) (node_ids lines)).
Proof.
  intros Hx. set (recs := records lines). set (ids := node_ids lines).
  rewrite scan_count_sorted;
    [|apply ext_neighbors_strong|intros; apply ext_neighbors_strong].
  assert (Hperm : forall lo,
    filter (fun y => lo <= y) (ext_neighbors lines x)
    ≡ₚ filter (fun y => joins recs x y = true) (filter (fun y => lo <= y) ids)).
  { intros lo. apply NoDup_Permutation.
    - apply NoDup_filter, strictly_increasing_NoDup, StronglySorted_Sorted,
        ext_neighbors_strong.
    - do 2 apply NoDup_filter. apply NoDup_node_ids.
    - intros y. rewrite !list_elem_of_filter. unfold recs.
      rewrite joins_ext_neighbors. split; [|tauto].
      intros [? Hy]. split_and!; try done.
      by apply ext_neighbors_node_ids in Hy as [_ ?]. }
  rewrite (sumZ_Permutation _ _ _ (Hperm (x + 1))), sumZ_filter.
  apply sumZ_ext. intros y _.
  destruct (decide (joins recs x y = true)) as [Hxy|Hxy].
  - rewrite (sumZ_Permutation _ _ _ (Hperm (y + 1))), sumZ_filter.
    apply sumZ_ext. intros z _.
    pose proof (joins_ext_neighbors lines y z) as Hyz. fold recs in Hyz.
    rewrite Hxy.
    destruct (joins recs x z), (joins recs y z); simpl;
      repeat case_decide; try done;
      match goal with
      | Hn : _ ∉ _ |- _ => exfalso; apply Hn, Hyz; reflexivity
      | Hin : _ ∈ ext_neighbors _ _ |- _ => apply Hyz in Hin; discriminate
      end.
  - apply not_true_is_false in Hxy. symmetry. apply sumZ_zero. intros z _.
    rewrite Hxy. simpl. by try case_decide.
Qed.

Lemma run_input_triangles lines :
  Z.of_nat (length lines) < 2 ^ 31 ->
  runTriangleCounting (csr_of_lines lines) = Ok (input_triangles lines mod 2 ^ 32).
Proof.
  intros Hsize. rewrite run_built by done. unfold u32, input_triangles. do 2 f_equal.
  rewrite <- node_ids_input_ids.
  set (h := fun x y z : Z =>
    if decide (joins (records lines) x y && joins (records lines) y z
               && joins (records lines) x z = true) then 1 else 0).
  rewrite (length_filter_sumZ
    (fun '(x, y, z) => joins (records lines) x y && joins (records lines) y z
                       && joins (records lines) x z = true)).
  rewrite (sumZ_ext _ (fun t => h t.1.1 t.1.2 t.2)).
  2:{ intros [[x y] z] _. unfold h. simpl. by repeat case_decide. }
  rewrite (sumZ_triples_sorted h) by apply node_ids_strong.
  apply sumZ_ext. intros x Hx. by apply scan_count_input.
Qed.

(** X3. From the text of a file to the count shown: for a text of fewer
    than 2^31 code units whose graph is within the default limits of the
    device, the run ends normally, and the count read back is the number of
    triangles of the input, the sets of three ids (as [parseInt] reads them)
    that the records join pairwise, modulo 2^32. *)
Theorem count_is_input_triangles text :
  Z.of_nat (length text) < 2 ^ 31 ->
  within_default_limits (parseGraphToCSR text) = true ->
  finalCount (parseGraphToCSR text)
  = Ok (input_triangles (input_lines text) mod 2 ^ 32).
Proof.
  intros Hsize Hlimits.
  destruct (parseGraphToCSR_invariants text Hsize) as [Hinv Hnum].
  assert (Hc : parseGraphToCSR text = csr_of_storage (storage_of (parseGraphToCSR text))).
  { unfold csr_of_storage. rewrite Hnum. by destruct (parseGraphToCSR text). }
  assert (Hrun : runTriangleCounting (parseGraphToCSR text)
                 = Ok (input_triangles (input_lines text) mod 2 ^ 32)).
  { unfold parseGraphToCSR. fold (input_lines text). apply run_input_triangles.
    pose proof (length_kept_lines text). unfold input_lines. lia. }
  rewrite Hc in Hlimits, Hrun |- *.
  rewrite system_run in Hrun by done.
  by rewrite finalCount_run.
Qed.

Lemma count_is_input_triangles_witness :
  finalCount
    (parseGraphToCSR (join_lines [text_of "5 9"; text_of "9 2"; text_of "2 5"]))
  = Ok (input_triangles
          (input_lines (join_lines [text_of "5 9"; text_of "9 2"; text_of "2 5"]))
        mod 2 ^ 32).
Proof.
  apply (count_is_input_triangles
           (join_lines [text_of "5 9"; text_of "9 2"; text_of "2 5"])).
  - vm_compute. reflexivity.
  - vm_compute. reflexivity.
Defined.

Example input_triangles_examples :
  input_triangles (text_of <$> ["5 9"; "9 2"; "2 5"; "2 2"; "7 9"]%string) = 1 /\
  input_edges (text_of <$> ["5 9"; "9 2"; "2 5"; "9 5"; "2 2"]%string)
  = [(2, 5); (2, 9); (5, 9)].
Proof. vm_compute. split; reflexivity. Qed.

(** ** Inputs without records, and renamed inputs *)

(** X17. An input none of whose lines gives a record (only comments, blank
    lines and lines that do not start with two integers) is the empty graph:
    no node, the single offset 0, no edge; and the launch on it counts 0. *)
Theorem no_records_empty_graph lines :
  records lines = [] ->
  csr_of_lines lines = {| numNodes := 0; rowPtr := [0]; edgeList := [] |} /\
  runTriangleCounting (csr_of_lines lines) = Ok 0.
Proof.
  intros Hrecs.
  assert (Heq : csr_of_lines lines = csr_of_lines []).
  { apply csr_of_lines_records. by rewrite Hrecs. }
  rewrite Heq. split; reflexivity.
Qed.

Lemma no_records_empty_graph_witness :
  csr_of_lines [text_of "one two"; text_of "7"; text_of " # 1 2"]
  = {| numNodes := 0; rowPtr := [0]; edgeList := [] |} /\
  runTriangleCounting
    (csr_of_lines [text_of "one two"; text_of "7"; text_of " # 1 2"]) = Ok 0.
Proof.
  apply (no_records_empty_graph
           [text_of "one two"; text_of "7"; text_of " # 1 2"]).
  reflexivity.
Defined.

Lemma mentions_fmap (f : Z -> Z) recs x :
  mentions ((fun '(u, v) => (f u, f v)) <$> recs) x
  <-> exists x0, x = f x0 /\ mentions recs x0.
Proof.
  unfold mentions. split.
  - intros (u & v & Huv & Hx). apply list_elem_of_fmap in Huv as ([u0 v0] & [= -> ->] & Hin).
    destruct Hx as [->| ->]; [exists u0|exists v0]; (split; [done|]);
      exists u0, v0; tauto.
  - intros (x0 & -> & u & v & Hin & Hx). exists (f u), (f v). split.
    + apply list_elem_of_fmap. by exists (u, v).
    + destruct Hx as [->| ->]; tauto.
Qed.

Lemma links_fmap (f : Z -> Z) recs x y :
  (forall a b, f a = f b -> a = b) ->
  links ((fun '(u, v) => (f u, f v)) <$> recs) (f x) (f y) <-> links recs x y.
Proof.
  intros Hinj. unfold links. split.
  - intros (u & v & Huv & Hne & Hxy).
    apply list_elem_of_fmap in Huv as ([u0 v0] & [= -> ->] & Hin).
    exists u0, v0. split; [done|]. split; [congruence|].
    destruct Hxy as [[?%Hinj ?%Hinj]|[?%Hinj ?%Hinj]]; tauto.
  - intros (u & v & Hin & Hne & Hxy). exists (f u), (f v). split.
    + apply list_elem_of_fmap. by exists (u, v).
    + split; [by intros ?%Hinj|]. destruct Hxy as [[-> ->]|[-> ->]]; tauto.
Qed.

Lemma links_fmap_inv (f : Z -> Z) recs x' y' :
  links ((fun '(u, v) => (f u, f v)) <$> recs) x' y' ->
  exists x y, x' = f x /\ y' = f y.
Proof.
  intros (u & v & Huv & _ & Hxy).
  apply list_elem_of_fmap in Huv as ([u0 v0] & [= -> ->] & _).
  destruct Hxy as [[-> ->]|[-> ->]]; eauto.
Qed.

(** X16. Only the order of the ids matters: if the records that are read
    from one input are those read from another with every id renamed by a
    strictly increasing map, the two graphs are the same, buffer for
    buffer. *)
Theorem order_preserving_renaming_same_graph (f : Z -> Z) lines1 lines2 :
  (forall x y, x < y -> f x < f y) ->
  records lines2 = (fun '(u, v) => (f u, f v)) <$> records lines1 ->
  csr_of_lines lines2 = csr_of_lines lines1.
Proof.
  intros Hmono Hrecs.
  assert (Hinj : forall a b, f a = f b -> a = b).
  { intros a b Hab. destruct (Z.lt_trichotomy a b) as [Hlt|[?|Hlt]]; [|done|];
      apply Hmono in Hlt; lia. }
  assert (Hids : node_ids lines2 = f <$> node_ids lines1).
  { apply strictly_sorted_ext; [apply node_ids_strong| |].
    - apply StronglySorted_fmap_mono; [apply node_ids_strong|]. intros; by apply Hmono.
    - intros x. rewrite elem_of_node_ids, Hrecs, mentions_fmap, list_elem_of_fmap.
      by setoid_rewrite elem_of_node_ids. }
  assert (Hnb : forall x, ext_neighbors lines2 (f x) = f <$> ext_neighbors lines1 x).
  { intros x. apply strictly_sorted_ext; [apply ext_neighbors_strong| |].
    - apply StronglySorted_fmap_mono; [apply ext_neighbors_strong|]. intros; by apply Hmono.
    - intros y'. rewrite elem_of_ext_neighbors, Hrecs, list_elem_of_fmap. split.
      + intros Hl. destruct (links_fmap_inv _ _ _ _ Hl) as (x0 & y & _ & ->).
        exists y. split; [done|]. rewrite elem_of_ext_neighbors.
        by apply (links_fmap f (records lines1)).
      + intros (y & -> & Hy). apply links_fmap; [done|].
        by apply elem_of_ext_neighbors. }
  rewrite !csr_of_lines_rows. cbv zeta. rewrite Hids.
  assert (Hrows :
    row_data (adj (build_state lines2)) (make_nodeMap (f <$> node_ids lines1))
      <$> (f <$> node_ids lines1)
    = row_data (adj (build_state lines1)) (make_nodeMap (node_ids lines1))
      <$> node_ids lines1).
  { rewrite <- list_fmap_compose. apply list_fmap_ext. intros _ x _. simpl.
    unfold row_data. fold (ext_neighbors lines2 (f x)). fold (ext_neighbors lines1 x).
    rewrite Hnb, <- list_fmap_compose. apply list_fmap_ext.
    intros _ y Hy%list_elem_of_lookup_2. simpl.
    apply ext_neighbors_node_ids in Hy as [_ (i & Hi)%list_elem_of_lookup_1].
    rewrite (make_nodeMap_lookup _ i y) by (apply NoDup_node_ids || done).
    apply (make_nodeMap_lookup _ i (f y)).
    - rewrite <- Hids. apply NoDup_node_ids.
    - by rewrite list_lookup_fmap, Hi. }
  rewrite Hrows. by rewrite length_fmap.
Qed.

Lemma order_preserving_renaming_same_graph_witness :
  csr_of_lines [text_of "10 30"; text_of "20 10"; text_of "30 20"]
  = csr_of_lines [text_of "0 2"; text_of "1 0"; text_of "2 1"].
Proof.
  apply (order_preserving_renaming_same_graph (fun x => 10 * x + 10)
           [text_of "0 2"; text_of "1 0"; text_of "2 1"]
           [text_of "10 30"; text_of "20 10"; text_of "30 20"]).
  - intros x y Hxy. lia.
  - reflexivity.
Defined.
